(** * ForML: a shallow embedding of the ETL DSL front end, the actor
      wrappers, the source operator and the assembly visitor.

    Part I holds the definitions, one module per Python module of the
    project; Part II holds the theorems about them. *)

From Stdlib Require Import ZArith Lia.
From stdpp Require Import gmap strings list.

Set Warnings "-register-all,-clear-no-such-hyp".

(* ===================================================================== *)
(** * Part I: definitions                                                 *)
(* ===================================================================== *)

(** ** forml.error and the Python built-in exceptions the code lets escape *)

Inductive error : Type :=
| Invalid          (* forml.error.Invalid *)
| Missing          (* forml.error.Missing *)
| Unexpected       (* forml.error.Unexpected *)
| ValueError
| TypeError
| KeyError
| IndexError
| AttributeError
| AssertionError.

Global Instance error_eq_dec : EqDecision error.
Proof. solve_decision. Defined.

Inductive result (A : Type) : Type :=
| Ok (a : A)
| Raise (e : error).
Arguments Ok {A} a.
Arguments Raise {A} e.

Definition is_ok {A} (r : result A) : bool :=
  match r with Ok _ => true | Raise _ => false end.

(** ** Native values (kind.Native) and Python truthiness *)

Inductive Native : Type :=
| NNone                                   (* None *)
| NBool (b : bool)
| NInt (z : Z)
| NStr (s : string)
| NDate (year month day : Z)              (* datetime.date *)
| NTimestamp (date : Z * Z * Z) (micros : Z).  (* datetime.datetime *)

(** [bool(value)]: None, False, 0 and the empty string are falsy; dates and
    timestamps define neither [__bool__] nor [__len__] and are truthy. *)
Definition truthy (v : Native) : bool :=
  match v with
  | NNone => false
  | NBool b => b
  | NInt z => negb (z =? 0)%Z
  | NStr s => negb (String.eqb s "")
  | NDate _ _ _ => true
  | NTimestamp _ _ => true
  end.

(** [value is not None]. *)
Definition supplied (v : Native) : bool :=
  match v with NNone => false | _ => true end.

(** ** forml.etl.dsl.schema.frame *)

Module frame.

(** Objects live in a store and are named by their address, so that a
    receiver can be compared before and after a call. *)
Abbreviation ref := nat.

Inductive Kind := Integer | Float | String_ | Date | Timestamp | Boolean.

(** [etl.Field(kind, name=None)] as found in a schema namespace. *)
Record etlField := { field_name : option string; field_kind : Kind }.

(** series: columns are immutable trees. *)
Inductive Column : Type :=
| Field (table : ref) (name : string) (kind : Kind)
| Literal (value : Native)
| Expression (operator : string) (operands : list Column)
| Aliased (column : Column) (alias : string).

Inductive JoinKind := LEFT | RIGHT | INNER | FULL | CROSS.
Inductive SetKind := UNION | INTERSECTION | DIFFERENCE.
Inductive Direction := ASCENDING | DESCENDING.

(** A direction given symbolically or as a string token. *)
Inductive token := Symbolic (d : Direction) | Token (s : string).

(** One positional argument of [orderby]. *)
Inductive orderarg :=
| OColumn (c : Column)
| ODirection (t : token)
| OPair (c : Column) (t : token).

Record QueryData := {
  source : ref;
  columns : list Column;
  prefilter : option Column;
  grouping : list Column;
  postfilter : option Column;
  ordering : list (Column * Direction);
  rows : option (Z * Z)
}.

Inductive obj : Type :=
| Schema (module qualname : string) (fields : list (string * etlField))
| Table (schema : ref)                  (* the 1-tuple [schema] *)
| Join (left right : ref) (condition : Column) (kind : JoinKind)
| Set_ (left right : ref) (kind : SetKind)
| Query (q : QueryData).

Abbreviation heap := (list obj).

(** A computation reads and extends the store and may raise. *)
Definition M (A : Type) : Type := heap -> result A * heap.

Definition ret {A} (a : A) : M A := fun h => (Ok a, h).
Definition raise {A} (e : error) : M A := fun h => (Raise e, h).
Definition bind {A B} (m : M A) (k : A -> M B) : M B :=
  fun h => match m h with
           | (Ok a, h') => k a h'
           | (Raise e, h') => (Raise e, h')
           end.
Definition alloc (o : obj) : M ref :=
  fun h => (Ok (length h), h ++ [o]).

Notation "'let*' x ':=' m 'in' k" := (bind m (fun x => k))
  (at level 10, x name, m at level 99, k at level 200).

Section Hashing.
(** [hash] on [str] is seeded per process; it is a parameter. *)
Variable str_hash : string -> Z.

(** [hash(obj)] never returns -1: CPython maps a [__hash__] result of
    -1 to -2. *)
Definition slot_hash (z : Z) : Z := if (z =? -1)%Z then (-2)%Z else z.

(** [Table.Schema.__hash__]:
    [hash(cls.__module__) ^ hash(cls.__qualname__)]. *)
Definition Schema_hash (module qualname : string) : Z :=
  slot_hash (Z.lxor (str_hash module) (str_hash qualname)).

(** [hash(x)] for the object at address [x]; only schemas and tables
    are hashed by the code modelled here. *)
Definition hash (h : heap) (x : ref) : option Z :=
  match h !! x with
  | Some (Schema m q _) => Some (Schema_hash m q)
  | Some (Table s) =>                 (* Table.__hash__ *)
      match h !! s with
      | Some (Schema m q _) => Some (Schema_hash m q)
      | _ => None
      end
  | _ => None
  end.

(** [Table.Schema.__eq__]: [hash(cls) == hash(other)]. *)
Definition Schema_eq (h : heap) (cls other : ref) : option bool :=
  match hash h cls, hash h other with
  | Some a, Some b => Some (a =? b)%Z
  | _, _ => None
  end.

(** [tuple.__eq__] on two 1-tuples: the items are compared by identity
    first and by [==] otherwise. *)
Definition Table_eq (h : heap) (a b : ref) : option bool :=
  match h !! a, h !! b with
  | Some (Table s1), Some (Table s2) =>
      if s1 =? s2 then Some true else Schema_eq h s1 s2
  | _, _ => None
  end.
End Hashing.

(** [Table.__schema__]: item 0 of the tuple. *)
Definition Table_schema (h : heap) (self : ref) : option ref :=
  match h !! self with
  | Some (Table s) => Some s
  | _ => None
  end.

(** [Table.__getattr__]:
    [series.Field(self, field.name or name, field.kind)]. *)
Definition Table_getattr (h : heap) (self : ref) (name : string)
  : option Column :=
  match Table_schema h self with
  | Some s =>
      match h !! s with
      | Some (Schema _ _ fields) =>
          match List.find (fun p => String.eqb (fst p) name) fields with
          | Some (_, f) =>
              Some (Field self (default name (field_name f)) (field_kind f))
          | None => None
          end
      | _ => None
      end
  | None => None
  end.

(** [Table.__new__] as the class statement calls it (the metaclass use):
    the new schema class takes its module and qualified name from the
    namespace and inherits from the schema of the first base, if any;
    the result is the tuple holding that schema. *)
Definition Table_new (bases : list ref) (module qualname : string)
    (namespace : list (string * etlField)) : M ref :=
  fun h =>
    match bases with
    | [] =>
        (let* s := alloc (Schema module qualname namespace) in
         alloc (Table s)) h
    | b :: _ =>
        match Table_schema h b with
        | Some sb =>
            match h !! sb with
            | Some (Schema _ _ inherited) =>
                (let* s := alloc (Schema module qualname
                                    (namespace ++ inherited)) in
                 alloc (Table s)) h
            | _ => (Raise TypeError, h)
            end
        | None => (Raise AttributeError, h)
        end
    end.

(** What a caller can see of a table: its schema object and the columns
    its attributes resolve to. *)
Definition observe (h : heap) (self : ref)
  : option obj * (string -> option Column) :=
  (match Table_schema h self with Some s => h !! s | None => None end,
   Table_getattr h self).

Section Statement.
(** Modelled from the spec: the lineage test of [statement.Query]
    ("Columns derived from the Query's own source lineage") belongs to
    the statement module, which is not in the sources; it is taken as a
    parameter. *)
Variable derived : heap -> ref -> Column -> bool.

(** Modelled from the spec: [statement.Rows(count, offset)], which is
    not in the sources; "[limit(count, offset)] fails with [Invalid] if
    [count < 0] or [offset < 0]". *)
Definition Rows (count offset : Z) : result (Z * Z) :=
  if (count <? 0)%Z || (offset <? 0)%Z then Raise Invalid
  else Ok (count, offset).

(** Modelled from the spec: the direction tokens of
    [statement.Ordering]; a token "outside {ascending, descending}
    (string or symbolic)" is [Invalid]. *)
Definition direction (t : token) : result Direction :=
  match t with
  | Symbolic d => Ok d
  | Token s =>
      if String.eqb s "ascending" then Ok ASCENDING
      else if String.eqb s "descending" then Ok DESCENDING
      else Raise Invalid
  end.

(** Modelled from the spec: the ordering spec is an "ordered list of
    (Column, direction)", "default when omitted is ascending". *)
Fixpoint make_ordering (args : list orderarg)
  : result (list (Column * Direction)) :=
  match args with
  | [] => Ok []
  | OColumn c :: ODirection t :: rest | OPair c t :: rest =>
      match direction t, make_ordering rest with
      | Ok d, Ok l => Ok ((c, d) :: l)
      | Raise e, _ | _, Raise e => Raise e
      end
  | OColumn c :: rest =>
      match make_ordering rest with
      | Ok l => Ok ((c, ASCENDING) :: l)
      | Raise e => Raise e
      end
  | ODirection _ :: _ => Raise Invalid
  end.

Definition lift {A} (r : result A) : M A := fun h => (r, h).

(** Modelled from the spec: the constructor of [statement.Query], which
    is not in the sources: an immutable aggregate of source, selected
    columns, pre-filter, grouping, post-filter, ordering and row window,
    built as a new object; [having] and [groupby] arguments must derive
    from the source lineage. *)
Definition Query_new (source : ref) (columns : list Column)
    (prefilter : option Column) (grouping : list Column)
    (postfilter : option Column) (ordering : list orderarg)
    (rows : option (Z * Z)) : M ref :=
  fun h =>
    if negb (forallb (derived h source) grouping
             && from_option (derived h source) true postfilter)
    then (Raise Invalid, h)
    else (let* o := lift (make_ordering ordering) in
          alloc (Query {| frame.source := source;
                          frame.columns := columns;
                          frame.prefilter := prefilter;
                          frame.grouping := grouping;
                          frame.postfilter := postfilter;
                          frame.ordering := o;
                          frame.rows := rows |})) h.

(** Modelled from the spec: [statement.Join(left, right, condition,
    kind)]; "default kind when unspecified is [left]". *)
Definition Join_new (left right : ref) (condition : Column)
    (kind : option JoinKind) : M ref :=
  alloc (Join left right condition (default LEFT kind)).

(** Modelled from the spec: [statement.Set(left, right, kind)]. *)
Definition Set_new (left right : ref) (kind : SetKind) : M ref :=
  alloc (Set_ left right kind).

(** *** Queryable *)

Definition union (self other : ref) : M ref :=
  let* s := Set_new self other UNION in
  Query_new s [] None [] None [] None.

Definition intersection (self other : ref) : M ref :=
  let* s := Set_new self other INTERSECTION in
  Query_new s [] None [] None [] None.

Definition difference (self other : ref) : M ref :=
  let* s := Set_new self other DIFFERENCE in
  Query_new s [] None [] None [] None.

(** *** Table *)

Definition select (self : ref) (columns : list Column) : M ref :=
  Query_new self columns None [] None [] None.

Definition where_ (self : ref) (condition : Column) : M ref :=
  Query_new self [] (Some condition) [] None [] None.

Definition having (self : ref) (condition : Column) : M ref :=
  Query_new self [] None [] (Some condition) [] None.

Definition join (self other : ref) (condition : Column)
    (kind : option JoinKind) : M ref :=
  let* j := Join_new self other condition kind in
  Query_new j [] None [] None [] None.

Definition groupby (self : ref) (columns : list Column) : M ref :=
  Query_new self [] None columns None [] None.

Definition orderby (self : ref) (columns : list orderarg) : M ref :=
  Query_new self [] None [] None columns None.

(** [limit(count, offset=0)]:
    [statement.Query(self, rows=statement.Rows(count, offset))]. *)
Definition limit (self : ref) (count : Z) (offset : option Z) : M ref :=
  let* r := lift (Rows count (default 0%Z offset)) in
  Query_new self [] None [] None [] (Some r).

(** The fluent combinators of a queryable source, as one call. *)
Inductive combinator : Type :=
| CSelect (columns : list Column)
| CWhere (condition : Column)
| CHaving (condition : Column)
| CJoin (other : ref) (condition : Column) (kind : option JoinKind)
| CGroupby (columns : list Column)
| COrderby (columns : list orderarg)
| CLimit (count : Z) (offset : option Z)
| CUnion (other : ref)
| CIntersection (other : ref)
| CDifference (other : ref).

Definition invoke (self : ref) (c : combinator) : M ref :=
  match c with
  | CSelect cs => select self cs
  | CWhere e => where_ self e
  | CHaving e => having self e
  | CJoin o e k => join self o e k
  | CGroupby cs => groupby self cs
  | COrderby os => orderby self os
  | CLimit n m => limit self n m
  | CUnion o => union self o
  | CIntersection o => intersection self o
  | CDifference o => difference self o
  end.

(** Whether the arguments of a combinator pass what the constructors
    check: a [having] condition and [groupby] columns derive from the
    receiver, the directions of [orderby] are ascending or descending, a
    [limit] has no negative count or offset. *)
Definition accepted (h : heap) (self : ref) (c : combinator) : bool :=
  match c with
  | CSelect _ | CWhere _ | CJoin _ _ _
  | CUnion _ | CIntersection _ | CDifference _ => true
  | CHaving e => derived h self e
  | CGroupby cs => forallb (derived h self) cs
  | COrderby os => is_ok (make_ordering os)
  | CLimit n m => (0 <=? n)%Z && (0 <=? default 0%Z m)%Z
  end.

(** The receiver of the query that a combinator builds: the table itself,
    or the left side of the join or set that the query reads. *)
Definition reads (h : heap) (self : ref) (q : QueryData) : bool :=
  match h !! source q with
  | Some (Join l _ _ _) | Some (Set_ l _ _) => l =? self
  | _ => source q =? self
  end.

(** The combinators for which the spec names no failure. *)
Definition unconditional (c : combinator) : bool :=
  match c with
  | CSelect _ | CWhere _ | CJoin _ _ _
  | CUnion _ | CIntersection _ | CDifference _ => true
  | CHaving _ | CGroupby _ | COrderby _ | CLimit _ _ => false
  end.

(** A run of combinator calls, each on a receiver of its own; a call that
    raises leaves the run going, as under a handler. *)
Fixpoint invoke_all (calls : list (ref * combinator)) (h : heap) : heap :=
  match calls with
  | [] => h
  | (self, c) :: rest => invoke_all rest (snd (invoke self c h))
  end.
End Statement.

End frame.

(** ** forml.flow: the graph the source operator builds and the linker reads *)

Module flow.

(** Modelled from the spec: [task.Spec], the "Actor factory" a node holds,
    with its bound parameters; the task module is not in the sources. *)
Record Spec := { actor : string; params : list (string * Native) }.

(** Modelled from the spec: the node module is not in the sources. A
    node "holds an Actor factory plus declared input-port and output-port
    arities"; a [Future] is the "unbound placeholder (reserved identity,
    no concrete spec/arity yet)". The gid of a node is its slot in the
    arena. *)
Inductive Atomic : Type :=
| Worker (spec : Spec) (szin szout : nat)
| Future.

(** A port: the node and the index on it. *)
Abbreviation port := (nat * nat)%type.

(** Modelled from the spec: "a Port on one node's output may be
    subscribed to by zero or more downstream input ports (fan-out); each
    input port accepts exactly one upstream publisher (fan-in is
    forbidden)": subscriptions are kept per input port. *)
Record Graph := {
  nodes : list Atomic;
  subs : gmap port port        (* input port ↦ the output port feeding it *)
}.

Definition empty : Graph := {| nodes := []; subs := ∅ |}.

(** Only the input ports of nodes that exist are subscribed. *)
Definition wf (g : Graph) : Prop :=
  forall p q : port, subs g !! p = Some q -> p.1 < length (nodes g).

Definition G (A : Type) : Type := Graph -> result (A * Graph).

Definition ret {A} (a : A) : G A := fun g => Ok (a, g).
Definition raise {A} (e : error) : G A := fun _ => Raise e.
Definition bind {A B} (m : G A) (k : A -> G B) : G B :=
  fun g => match m g with
           | Ok (a, g') => k a g'
           | Raise e => Raise e
           end.

Notation "'let*' x ':=' m 'in' k" := (bind m (fun x => k))
  (at level 10, x name, m at level 99, k at level 200).
Notation "m ';;' k" := (bind m (fun _ => k))
  (at level 100, k at level 200, right associativity).

(** Modelled from the spec: [node.Worker(spec, szin, szout)] and
    [node.Future()] make a new node with "a process-lifetime-unique
    identity (gid)". *)
Definition new_node (a : Atomic) : G nat :=
  fun g => Ok (length (nodes g),
               {| nodes := nodes g ++ [a]; subs := subs g |}).

(** Modelled from the spec: [subscriber.subscribe(publisher)]; an input
    port that has a publisher takes no other ("fan-in is forbidden"). *)
Definition subscribe (subscriber publisher : port) : G unit :=
  fun g => match subs g !! subscriber with
           | Some _ => Raise Invalid
           | None => Ok (tt, {| nodes := nodes g;
                                subs := <[subscriber := publisher]> (subs g) |})
           end.

(** Modelled from the spec: [view.Path], a pair of "graph entry/exit
    handles". *)
Record Path := { head : nat; tail : nat }.

(** Modelled from the spec: [view.Path(node)], the path of one node. *)
Definition Path_new (node : nat) : Path := {| head := node; tail := node |}.
(** Modelled from the spec: [path.publisher], output 0 of the tail. *)
Definition publisher (p : Path) : port := (tail p, 0).
(** Modelled from the spec: [path.extend(tail=...)], the path from the
    same head to a new tail. *)
Definition extend (p : Path) (tail : nat) : Path :=
  {| head := head p; tail := tail |}.

(** Modelled from the spec: [pipeline.Segment(apply, train, label)], "a
    triple of graph entry/exit handles", the label path optional. *)
Record Segment := { apply : Path; train : Path; label : option Path }.

(** The nodes a segment holds on to: the heads and tails of its paths. *)
Definition Segment_nodes (s : Segment) : list nat :=
  [head (apply s); tail (apply s); head (train s); tail (train s)]
  ++ match label s with
     | Some l => [head l; tail l]
     | None => []
     end.

(** Modelled from the spec: [topology.Composable], "the distinguished
    Origin marker (no upstream stage)" or any other stage. *)
Inductive Composable : Type :=
| Origin
| Stage (name : string)
| Compound (left right : Composable).

Definition is_origin (c : Composable) : bool :=
  match c with Origin => true | _ => false end.

End flow.

(** ** forml.io.etl.extract *)

Module extract.
Import flow.

(** *** Statement *)

Section Statement.
(** The statement and series modules are not in the sources: the query
    type with its [where] method and the comparison operators of an
    ordinal element are parameters. *)
Context {Query Element Expression : Type}.
Variable where_ : Query -> Expression -> Query.
Variable ge lt : Element -> Native -> Expression.

Record Prepared := { query : Query; ordinal : option Element }.

(** [Statement.Prepared.__call__(lower=None, upper=None)]. *)
Definition Prepared_call (self : Prepared) (lower upper : Native)
  : result Query :=
  let query := query self in
  match ordinal self with
  | Some ordinal =>
      let query :=
        if truthy lower then where_ query (ge ordinal lower) else query in
      let query :=
        if truthy upper then where_ query (lt ordinal upper) else query in
      Ok query
  | None =>
      if truthy lower || truthy upper then Raise Unexpected
      else Ok query
  end.

Record Statement := {
  prepared : Prepared;
  lower : Native;
  upper : Native
}.

(** [Statement.prepare(query, ordinal, lower=None, upper=None)]. *)
Definition prepare (query : Query) (ordinal : option Element)
    (lower upper : Native) : Statement :=
  {| prepared := {| query := query; ordinal := ordinal |};
     lower := lower; upper := upper |}.

(** [Statement.__call__()]. *)
Definition Statement_call (self : Statement) : result Query :=
  Prepared_call (prepared self) (lower self) (upper self).
End Statement.

(** *** Reader *)

Section Reader.
Context {Query Element Expression Columnar : Type}.
Variable where_ : Query -> Expression -> Query.
Variable ge lt : Element -> Native -> Expression.

(** [Reader.Actor.apply()]: [self._reader(self._statement())]; the reader
    is any callable and may raise. *)
Definition Reader_Actor_apply (_reader : Query -> result Columnar)
    (_statement : Statement) : result Columnar :=
  match Statement_call where_ ge lt _statement with
  | Ok query => _reader query
  | Raise e => Raise e
  end.
End Reader.

(** *** Operator *)

Record Operator := {
  _apply : Spec;
  _train : Spec;
  _label : option Spec
}.

(** [Operator.__init__(apply, train=None, label=None)]. *)
Definition Operator_init (apply : Spec) (train label : option Spec)
  : Operator :=
  {| _apply := apply; _train := default apply train; _label := label |}.

(** [Operator.compose(left)]. *)
Definition compose (self : Operator) (left : Composable) : G Segment :=
  if negb (is_origin left) then raise Invalid
  else
    let* a := new_node (Worker (_apply self) 0 1) in
    let apply := Path_new a in
    let* t := new_node (Worker (_train self) 0 1) in
    let train := Path_new t in
    match _label self with
    | Some label =>
        let* train_tail := new_node Future in
        let* label_tail := new_node Future in
        let* extract := new_node (Worker label 1 2) in
        subscribe (extract, 0) (publisher train) ;;
        subscribe (train_tail, 0) (extract, 0) ;;
        subscribe (label_tail, 0) (extract, 1) ;;
        let train := extend train train_tail in
        let label := extend train label_tail in
        ret {| apply := apply; train := train; label := Some label |}
    | None =>
        ret {| apply := apply; train := train; label := None |}
    end.

(** *** Slicer *)

(** A column selection: a [slice(start, stop)] or an [int]. *)
Inductive selection : Type :=
| Slice (start : option nat) (stop : nat)
| Index (i : nat).

(** What a selection yields: a run of columns or one column. *)
Inductive sliced (A : Type) : Type :=
| Columns (l : list A)
| Column (a : A).
Arguments Columns {A} l.
Arguments Column {A} a.

Section Slicer.
Context {A : Type}.

Record Actor := {
  _slicer : list A -> selection -> result (sliced A);
  _features : selection;
  _label_sel : selection
}.

(** [Slicer.Actor.__init__(slicer, features, labels)]. *)
Definition Actor_init {C : Type}
    (slicer : list A -> selection -> result (sliced A))
    (features labels : list C) : Actor :=
  let fstop := length features in
  let lcount := length labels in
  {| _slicer := slicer;
     _features := Slice None fstop;
     _label_sel := if 1 <? lcount then Slice (Some fstop) (fstop + lcount)
                   else Index fstop |}.

(** [Slicer.Actor.apply(columns)]. *)
Definition Actor_apply (self : Actor) (columns : list A)
  : result (sliced A * sliced A) :=
  if negb (length columns =?
             match _label_sel self with
             | Slice _ stop => stop
             | Index i => i + 1
             end)
  then Raise AssertionError
  else
    match _slicer self columns (_features self) with
    | Ok f =>
        match _slicer self columns (_label_sel self) with
        | Ok l => Ok (f, l)
        | Raise e => Raise e
        end
    | Raise e => Raise e
    end.

(** Indexing a sequence with a selection. *)
Definition getitem {B : Type} (source : list B) (sel : selection)
  : result (sliced B) :=
  match sel with
  | Slice start stop =>
      let start := default 0 start in
      Ok (Columns (take (stop - start) (drop start source)))
  | Index i =>
      match source !! i with
      | Some a => Ok (Column a)
      | None => Raise IndexError
      end
  end.

(** [Slicer.__call__(source, selection)]: the columns selected from the
    schema are computed for the log, then [source[selection]] is
    returned. *)
Definition Slicer_call {C : Type} (_schema : list C) (source : list A)
    (sel : selection) : result (sliced A) :=
  match getitem _schema sel with
  | Ok _ => getitem source sel
  | Raise e => Raise e
  end.
End Slicer.

End extract.

(** ** forml.lib.flow.actor.wrapped *)

Module wrapped.

(** *** inspect.Signature.bind_partial, as the function wrapper uses it *)

Inductive kind : Type :=
| POSITIONAL_ONLY
| POSITIONAL_OR_KEYWORD
| VAR_POSITIONAL
| KEYWORD_ONLY
| VAR_KEYWORD.

Record Param := { name : string; pkind : kind; has_default : bool }.

Definition Signature : Type := list Param.

Section Function.
(** The values passed as arguments; binding looks at none of them. *)
Context {V : Type}.

(** The walk over the positional arguments: the parameters left for the
    keyword phase, or [TypeError] ("too many positional arguments",
    "multiple values for argument", "passed as a keyword"). Binding is
    partial, so a parameter left without a value is no error. *)
Fixpoint bind_positional (parameters : list Param) (args : list V)
    (kwargs : gmap string V) : result (list Param) :=
  match args, parameters with
  | [], [] => Ok []
  | [], param :: rest =>
      match pkind param with
      | VAR_POSITIONAL => Ok rest
      | POSITIONAL_ONLY =>
          if bool_decide (is_Some (kwargs !! name param))
          then Raise TypeError
          else Ok (param :: rest)
      | _ => Ok (param :: rest)
      end
  | _ :: _, [] => Raise TypeError
  | _ :: args', param :: rest =>
      match pkind param with
      | VAR_KEYWORD | KEYWORD_ONLY => Raise TypeError
      | VAR_POSITIONAL => Ok rest
      | POSITIONAL_ONLY => bind_positional rest args' kwargs
      | POSITIONAL_OR_KEYWORD =>
          if bool_decide (is_Some (kwargs !! name param))
          then Raise TypeError
          else bind_positional rest args' kwargs
      end
  end.

(** The walk over the remaining parameters, popping the keyword
    arguments they name; what is left over needs a [**kwargs]
    parameter. *)
Fixpoint bind_keywords (parameters : list Param)
    (kwargs : gmap string V) (kwargs_param : bool) : result unit :=
  match parameters with
  | [] =>
      if bool_decide (dom kwargs = ∅) || kwargs_param then Ok tt
      else Raise TypeError
  | param :: rest =>
      match pkind param with
      | VAR_KEYWORD => bind_keywords rest kwargs true
      | VAR_POSITIONAL => bind_keywords rest kwargs kwargs_param
      | k =>
          match kwargs !! name param with
          | None => bind_keywords rest kwargs kwargs_param
          | Some _ =>
              match k with
              | POSITIONAL_ONLY => Raise TypeError
              | _ => bind_keywords rest (delete (name param) kwargs)
                                   kwargs_param
              end
          end
      end
  end.

Definition bind_partial (signature : Signature) (args : list V)
    (kwargs : gmap string V) : result unit :=
  match bind_positional signature args kwargs with
  | Ok rest => bind_keywords rest kwargs false
  | Raise e => Raise e
  end.

(** A Python callable: whether [inspect.isfunction] holds of it, and
    its declared signature. *)
Record Callable := { isfunction : bool; signature : Signature }.

Record FunctionActor := {
  _function : Callable;
  _args : list V;
  _kwargs : gmap string V
}.

(** Whether a keyword argument has one of the given names. A method
    declared as [m(self, function, ...)] and called with its first
    arguments by position takes no keyword of their names: Python raises
    [TypeError] (multiple values for the argument) before the body
    runs. *)
Definition names_any (names : list string) (kwargs : gmap string V) : bool :=
  existsb (fun n => bool_decide (is_Some (kwargs !! n))) names.

(** [Function.Actor.__init__(self, function, *args, **kwargs)] on a
    function given by position: no keyword may be called [self] or
    [function]; then the signature less its first parameter is bound to
    the arguments. *)
Definition Actor_init (function : Callable) (args : list V)
    (kwargs : gmap string V) : result FunctionActor :=
  if names_any ["self"; "function"]%string kwargs then Raise TypeError
  else
    match bind_partial (drop 1 (signature function)) args kwargs with
    | Ok _ => Ok {| _function := function; _args := args;
                    _kwargs := kwargs |}
    | Raise e => Raise e
    end.

(** [Function.Actor.apply( *features)]: the call made to the function,
    the features first, then the bound arguments. *)
Definition Actor_apply_call (self : FunctionActor) (features : list V)
  : list V * gmap string V :=
  (features ++ _args self, _kwargs self).

(** The dictionary of [get_params]. *)
Record Params := {
  p_function : Callable;
  p_args : list V;
  p_kwargs : gmap string V
}.

(** [Function.Actor.get_params()]. *)
Definition get_params (self : FunctionActor) : Params :=
  {| p_function := _function self; p_args := _args self;
     p_kwargs := _kwargs self |}.

(** [Function.Actor.set_params(function=None, args=None, kwargs=None)]:
    a value is taken when it is truthy; a function is, a sequence or a
    dictionary when it is not empty. *)
Definition set_params (self : FunctionActor) (function : option Callable)
    (args : option (list V)) (kwargs : option (gmap string V))
  : FunctionActor :=
  {| _function := match function with
                  | Some f => f
                  | None => _function self
                  end;
     _args := match args with
              | Some (a :: l) => a :: l
              | _ => _args self
              end;
     _kwargs := match kwargs with
                | Some k => if bool_decide (dom k = ∅) then _kwargs self
                            else k
                | None => _kwargs self
                end |}.

(** The wrapper [Function(function, **params)]. *)
Record Function := { f_actor : Callable; f_params : gmap string V }.

(** [Function.__init__(self, function, **params)] on a function given by
    position: no parameter may be called [self] or [function]. *)
Definition Function_init (function : Callable) (params : gmap string V)
  : result Function :=
  if names_any ["self"; "function"]%string params then Raise TypeError
  else if negb (isfunction function) then Raise ValueError
  else Ok {| f_actor := function; f_params := params |}.

(** What [Function.actor] returns: the decorator, which holds the
    parameters, or the wrapper it makes. *)
Inductive fdecorated : Type :=
| FDecorator (params : gmap string V)
| FWrapped (w : Function).

(** [Function.actor(function=None, /, **params)]: the decorator is applied
    to a truthy first argument and returned as it is otherwise; [None]
    stands for [None] and for every other falsy object (a function is
    truthy). The first argument is positional only, so every keyword goes
    to the parameters. *)
Definition Function_actor (function : option Callable)
    (params : gmap string V) : result fdecorated :=
  match function with
  | Some function =>
      match Function_init function params with
      | Ok w => Ok (FWrapped w)
      | Raise e => Raise e
      end
  | None => Ok (FDecorator params)
  end.

(** [Function.__call__(self, *args, **kwargs)]: no keyword may be called
    [self]; then
    [self.Actor(self._actor, *args, **{**self._params, **kwargs})]. *)
Definition Function_call (self : Function) (args : list V)
    (kwargs : gmap string V) : result FunctionActor :=
  if names_any ["self"]%string kwargs then Raise TypeError
  else Actor_init (f_actor self) args (kwargs ∪ f_params self).

(** [Function.is_stateful()]. *)
Definition Function_is_stateful (self : Function) : bool := false.
End Function.

(** *** Class wrapping *)

(** What [getattr(cls, name)] finds: something callable or not. *)
Inductive member := Method | Data.

(** The decorated object, when it is truthy: a class (with whether it
    derives from [task.Actor], and its attributes) or anything else; or a
    falsy object, whatever it is ([None], 0, an empty string). *)
Inductive decoratee : Type :=
| AClass (actor_subclass : bool) (attrs : gmap string member)
| NotAClass
| Falsy.

(** A value of the mapping: a [str] or not. *)
Inductive mvalue := MStr (s : string) | MOther.

Definition is_str (v : mvalue) : bool :=
  match v with MStr _ => true | MOther => false end.

(** The wrapper [Class(cls, mapping)]. *)
Record Class := {
  c_actor : gmap string member;
  c_params : gmap string mvalue
}.

(** What [Class.actor] returns: the class as it is, the wrapper, or the
    inner decorator, which holds the mapping. *)
Inductive decorated : Type :=
| Untouched (cls : decoratee)
| Wrapped (w : Class)
| Decorator (mapping : gmap string mvalue).

(** The names of [task.Actor.apply], [train], [get_params] and
    [set_params]. *)
Definition methods : list string :=
  ["apply"; "train"; "get_params"; "set_params"]%string.

(** [mapping.setdefault(name, name)] for every actor method. *)
Definition setdefaults (mapping : gmap string mvalue)
  : gmap string mvalue :=
  foldl (fun m n => match m !! n with
                    | Some _ => m
                    | None => <[n := MStr n]> m
                    end) mapping methods.

(** [{t for s, t in mapping.items() if s != 'train'}]. *)
Definition targets (mapping : gmap string mvalue) : list mvalue :=
  (map_to_list (filter (fun kv => kv.1 ≠ "train"%string) mapping)).*2.

(** [callable(getattr(cls, target, None))]. *)
Definition callable (attrs : gmap string member) (target : mvalue)
  : bool :=
  match target with
  | MStr t => match attrs !! t with Some Method => true | _ => false end
  | MOther => false
  end.

(** [Class.actor(cls=None, /, **mapping)]: the inner decorator is applied
    to a truthy [cls] and returned as it is for a falsy one. *)
Definition Class_actor (cls : decoratee) (mapping : gmap string mvalue)
  : result decorated :=
  if negb (forallb is_str (map_to_list mapping).*2) then Raise ValueError
  else
    let mapping := setdefaults mapping in
    match cls with
    | Falsy => Ok (Decorator mapping)
    | NotAClass => Raise ValueError
    | AClass true _ => Ok (Untouched cls)
    | AClass false attrs =>
        if forallb (callable attrs) (targets mapping)
        then Ok (Wrapped {| c_actor := attrs; c_params := mapping |})
        else Raise Missing
    end.

(** [Mapping.is_stateful()]:
    [hasattr(self._actor, self._params['train'])]. *)
Definition is_stateful (self : Class) : result bool :=
  match c_params self !! "train"%string with
  | None => Raise KeyError
  | Some (MStr t) => Ok (bool_decide (is_Some (c_actor self !! t)))
  | Some MOther => Raise TypeError
  end.


(** Where an attribute of a [Class.Actor] is looked up: on the wrapper
    itself, or on the wrapped object under a name, with what is found
    there. *)
Inductive resolution : Type :=
| Own (item : string)
| Delegated (target : string) (found : member).

(** [Class.Actor.__getattribute__(item)]. *)
Definition getattribute (self : Class) (item : string) : result resolution :=
  if String.prefix "_" item
     || (negb (bool_decide (is_Some (c_params self !! item)))
         && negb (bool_decide (is_Some (c_actor self !! item))))
  then Ok (Own item)
  else
    match default (MStr item) (c_params self !! item) with
    | MStr target =>
        match c_actor self !! target with
        | Some found => Ok (Delegated target found)
        | None => Raise AttributeError
        end
    | MOther => Raise TypeError
    end.
End wrapped.

(** ** forml.runtime.assembly *)

Module assembly.
Import flow.

(** Modelled from the spec: a concrete [Instruction], the "invocation
    wrapper around one node's actor call"; the instruction module is not in
    the sources, and an instruction is known here by its node. *)
Inductive Instruction := Functor (gid : nat).

Global Instance Instruction_eq_dec : EqDecision Instruction.
Proof. solve_decision. Defined.

Record Symbol := {
  instruction : Instruction;
  arguments : list Instruction
}.

(** [Symbol.__new__(instruction, arguments=None)]: an argument that is
    [None] fails the assertion. *)
Definition Symbol_new (instruction : Instruction)
    (arguments : option (list (option Instruction))) : result Symbol :=
  let arguments := default [] arguments in
  if negb (forallb (fun a => bool_decide (is_Some a)) arguments)
  then Raise AssertionError
  else Ok {| instruction := instruction;
             arguments := omap id arguments |}.

(** Modelled from the spec: [symbol.Table], which is not in the sources.
    It "accumulates Symbols while visiting a path, deduplicating by node
    gid"; a Symbol "pairs one Instruction with its ordered list of
    argument Instructions (its direct dependencies)"; linking "fails with
    [Invalid] if a non-Frozen node is encountered". *)
Record Table := {
  known : gset nat;
  symbols : list Symbol
}.

Definition Table_empty : Table := {| known := ∅; symbols := [] |}.

(** The publishers feeding the input ports of a node, in port order. *)
Definition inputs (g : Graph) (node szin : nat)
  : list (option Instruction) :=
  (fun i => (fun p : port => Functor p.1) <$> subs g !! (node, i))
    <$> seq 0 szin.

(** Modelled from the spec: a frozen node is a bound worker with "no
    dangling input". *)
Definition frozen (g : Graph) (node : nat) : bool :=
  match nodes g !! node with
  | Some (Worker _ szin _) =>
      forallb (fun a => bool_decide (is_Some a)) (inputs g node szin)
  | _ => false
  end.

(** Modelled from the spec: [Table.add(node)]; "revisiting a known gid is
    a no-op", and a node that is not a frozen worker is [Invalid]. *)
Definition Table_add (g : Graph) (self : Table) (node : nat)
  : result Table :=
  if bool_decide (node ∈ known self) then Ok self
  else
    match nodes g !! node with
    | Some (Worker _ szin _) =>
        if negb (frozen g node) then Raise Invalid
        else
          match Symbol_new (Functor node) (Some (inputs g node szin)) with
          | Ok s => Ok {| known := {[node]} ∪ known self;
                          symbols := symbols self ++ [s] |}
          | Raise e => Raise e
          end
    | _ => Raise Invalid
    end.

(** [Visitor.visit_node(node)]: [self._table.add(node)]. *)
Definition visit_node (g : Graph) (_table : Table) (node : nat)
  : result Table :=
  Table_add g _table node.

(** [Visitor.visit_path(path)]: every symbol of the table goes to
    [visit_symbol], which the interpreters implement. *)
Definition visit_path {S : Type} (visit_symbol : S -> Symbol -> S)
    (_table : Table) (s : S) : S :=
  foldl visit_symbol s (symbols _table).

(** Modelled from the spec: [view.Path.accept], which is not in the
    sources: "traversal dispatches [visit_node] for every reachable
    Frozen node and [visit_path] once after traversal"; the order and the
    number of dispatches per node are those of the traversal, given here
    as the sequence of nodes it reaches. *)
Fixpoint dispatch (g : Graph) (_table : Table) (reached : list nat)
  : result Table :=
  match reached with
  | [] => Ok _table
  | node :: rest =>
      match visit_node g _table node with
      | Ok t => dispatch g t rest
      | Raise e => Raise e
      end
  end.

(** Modelled from the spec: [link(path)], a new visitor accepting the
    path. *)
Definition link (g : Graph) (reached : list nat) : result Table :=
  dispatch g Table_empty reached.

(** The symbol of a frozen worker: its instruction with those of the
    publishers of its input ports. *)
Definition symbol (g : Graph) (node : nat) : Symbol :=
  {| instruction := Functor node;
     arguments :=
       match nodes g !! node with
       | Some (Worker _ szin _) => omap id (inputs g node szin)
       | _ => []
       end |}.

(** The nodes of a sequence that are not in [seen], each once, in the
    order they first come. *)
Fixpoint distinct (seen : gset nat) (reached : list nat) : list nat :=
  match reached with
  | [] => []
  | node :: rest =>
      if bool_decide (node ∈ seen) then distinct seen rest
      else node :: distinct ({[node]} ∪ seen) rest
  end.

(** The input ports of a node. *)
Definition input_ports (g : Graph) (node : nat) : list port :=
  match nodes g !! node with
  | Some (Worker _ szin _) => (fun i => (node, i)) <$> seq 0 szin
  | _ => []
  end.

(** The input ports of the given nodes that a publisher feeds: its
    consumers among them. *)
Definition consumers (g : Graph) (among : list nat) (publisher : nat)
  : list port :=
  filter (fun s => fst <$> subs g !! s = Some publisher)
    (among ≫= input_ports g).

(** How many symbols of the table belong to a node. *)
Definition symbols_of (t : Table) (node : nat) : nat :=
  length (filter (fun s => instruction s = Functor node) (symbols t)).

(** How many times the instruction of a node is an argument. *)
Definition references (t : Table) (node : nat) : nat :=
  length (filter (fun a => a = Functor node)
            (concat (arguments <$> symbols t))).

End assembly.

(** ** forml.testing.facility *)

Module facility.
Import flow.

(** [Runner.Initializer]: the gids seen, and the nodes whose [spec()] was
    called, latest first. *)
Record Initializer := {
  _gids : gset nat;
  instantiated : list nat
}.

Definition Initializer_init : Initializer :=
  {| _gids := ∅; instantiated := [] |}.

(** [Runner.Initializer.visit_node(node)]. *)
Definition visit_node (g : Graph) (self : Initializer) (node : nat)
  : Initializer :=
  match nodes g !! node with
  | Some (Worker _ _ _) =>
      if bool_decide (node ∈ _gids self) then self
      else {| _gids := {[node]} ∪ _gids self;
              instantiated := node :: instantiated self |}
  | _ => self
  end.

(** Modelled from the spec: [path.accept(initializer)], the dispatch of
    [visit_node] along the nodes the traversal reaches. *)
Definition accept (g : Graph) (self : Initializer) (reached : list nat)
  : Initializer :=
  foldl (visit_node g) self reached.


(** [Runner.__call__]: one initializer accepts the apply, the train and
    the label path of the segment in turn. *)
Definition initialize (g : Graph) (apply train label : list nat)
  : Initializer :=
  accept g (accept g (accept g Initializer_init apply) train) label.

(** The initializer has instantiated each node once, and knows the gids of
    the nodes it has instantiated. *)
Definition consistent (self : Initializer) : Prop :=
  NoDup (instantiated self)
  /\ forall n, n ∈ _gids self <-> n ∈ instantiated self.

(** *** The testing feed *)

Section Feed.
Context {A : Type}.

(** The data of a scenario: opaque values and sequences of them. *)
Inductive value : Type :=
| Atom (a : A)
| Sequence (items : list value).

(** The fields of [DataSet]. *)
Inductive field := feature | label.

Global Instance field_eq_dec : EqDecision field.
Proof. solve_decision. Defined.

(** [spec.Scenario.Input]. *)
Record Scenario := { s_apply : value; s_train : value; s_label : value }.

(** [Feed.columns]. *)
Definition Feed_columns (_scenario : Scenario) (column : field) : value :=
  match column with
  | label => Sequence [s_train _scenario; Sequence [s_label _scenario]]
  | feature => s_apply _scenario
  end.

(** [Feed.reader(sources, columns)], the [read] callback on the columns
    of a query. *)
Definition Feed_read (columns : field -> value) (query_columns : list field)
  : value :=
  if bool_decide (label ∈ query_columns) then columns label
  else columns feature.

(** [v[0]]. *)
Definition first_item (v : value) : result value :=
  match v with
  | Sequence (x :: _) => Ok x
  | Sequence [] => Raise IndexError
  | Atom _ => Raise TypeError
  end.

(** [Feed.slicer(schema, columns)]: [lambda c, s: c[s][0]]. *)
Definition Feed_slicer (c : list value) (s : extract.selection)
  : result (extract.sliced value) :=
  match extract.getitem c s with
  | Ok (extract.Columns l) =>
      match first_item (Sequence l) with
      | Ok x => Ok (extract.Column x)
      | Raise e => Raise e
      end
  | Ok (extract.Column v) =>
      match first_item v with
      | Ok x => Ok (extract.Column x)
      | Raise e => Raise e
      end
  | Raise e => Raise e
  end.

(** The label extraction of the runner's source on what the feed reads for
    the train query: the columns read go through a slicer actor made of
    the feed's slicer, for the features and the labels of the source. *)
Definition extract_labels (_scenario : Scenario)
    (features labels : list field)
  : result (extract.sliced value * extract.sliced value) :=
  match Feed_read (Feed_columns _scenario) (features ++ labels) with
  | Sequence columns =>
      extract.Actor_apply
        (extract.Actor_init Feed_slicer features labels) columns
  | Atom _ => Raise TypeError
  end.
End Feed.
End facility.

(** ** Sample values *)

Module sample.

(** The store after the class statement of one schema ran twice. *)
Definition twice_declared : frame.heap :=
  let field := {| frame.field_name := None;
                  frame.field_kind := frame.Integer |} in
  snd (frame.bind
         (frame.Table_new [] "edu" "Student" [("score"%string, field)])
         (fun _ => frame.Table_new [] "edu" "Student" []) []).

(** A query kept as the list of its filters, over named columns. *)
Definition where_ (q : list (string * string * Native))
    (e : string * string * Native) : list (string * string * Native) :=
  q ++ [e].
Definition ge (o : string) (v : Native) : string * string * Native :=
  (o, ">="%string, v).
Definition lt (o : string) (v : Native) : string * string * Native :=
  (o, "<"%string, v).


(** A diamond: worker 0 feeds workers 1 and 2, which feed the two inputs
    of worker 3. *)
Definition diamond : flow.Graph :=
  let spec n := {| flow.actor := n; flow.params := [] |} in
  {| flow.nodes := [flow.Worker (spec "source") 0 1;
                    flow.Worker (spec "left") 1 1;
                    flow.Worker (spec "right") 1 1;
                    flow.Worker (spec "merge") 2 1];
     flow.subs := {[ (1, 0) := (0, 0); (2, 0) := (0, 0);
                     (3, 0) := (1, 0); (3, 1) := (2, 0) ]} |}.

(** [def scale(data, factor, *, offset=0)]. *)
Definition scale : wrapped.Callable :=
  {| wrapped.isfunction := true;
     wrapped.signature :=
       [ {| wrapped.name := "data";
            wrapped.pkind := wrapped.POSITIONAL_OR_KEYWORD;
            wrapped.has_default := false |};
         {| wrapped.name := "factor";
            wrapped.pkind := wrapped.POSITIONAL_OR_KEYWORD;
            wrapped.has_default := false |};
         {| wrapped.name := "offset";
            wrapped.pkind := wrapped.KEYWORD_ONLY;
            wrapped.has_default := true |} ] |}.

(** A class with [apply], [get_params] and [set_params] methods and a
    data attribute [train] (say, the share of rows to train on). *)
Definition splitter : gmap string wrapped.member :=
  {[ "apply"%string := wrapped.Method;
     "get_params"%string := wrapped.Method;
     "set_params"%string := wrapped.Method;
     "train"%string := wrapped.Data ]}.

End sample.

(* ===================================================================== *)
(** * Part II: theorems                                                   *)
(* ===================================================================== *)

(** ** Tables and schemas *)

Lemma slot_hash_lookup str_hash h t s m q fs :
  h !! t = Some (frame.Table s) ->
  h !! s = Some (frame.Schema m q fs) ->
  frame.hash str_hash h t = Some (frame.Schema_hash str_hash m q)
  /\ frame.hash str_hash h s = Some (frame.Schema_hash str_hash m q).
Proof.
  intros Ht Hs. unfold frame.hash. rewrite Ht, Hs. done.
Qed.

(** C9: two tables whose schemas carry the same module and the same
    qualified name compare equal and hash alike, whether or not they are
    the same instance and whatever else the schemas hold. *)
Theorem Table_equality_by_schema
    (str_hash : string -> Z) (h : frame.heap) (t1 t2 s1 s2 : frame.ref)
    (m q : string) (f1 f2 : list (string * frame.etlField)) :
  h !! t1 = Some (frame.Table s1) ->
  h !! t2 = Some (frame.Table s2) ->
  h !! s1 = Some (frame.Schema m q f1) ->
  h !! s2 = Some (frame.Schema m q f2) ->
  frame.Table_eq str_hash h t1 t2 = Some true
  /\ frame.hash str_hash h t1 = frame.hash str_hash h t2
  /\ is_Some (frame.hash str_hash h t1).
Proof.
  intros Ht1 Ht2 Hs1 Hs2.
  destruct (slot_hash_lookup str_hash h t1 s1 m q f1 Ht1 Hs1) as [E1 E1'].
  destruct (slot_hash_lookup str_hash h t2 s2 m q f2 Ht2 Hs2) as [E2 E2'].
  split; [|split].
  - unfold frame.Table_eq. rewrite Ht1, Ht2.
    destruct (s1 =? s2); [done|].
    unfold frame.Schema_eq. rewrite E1', E2'. by rewrite Z.eqb_refl.
  - by rewrite E1, E2.
  - rewrite E1. eauto.
Qed.

Lemma Table_equality_by_schema_witness :
  (1 ≠ 3)
  /\ frame.Table_eq (fun s => Z.of_nat (String.length s)) sample.twice_declared 1 3
     = Some true
  /\ frame.hash (fun s => Z.of_nat (String.length s)) sample.twice_declared 1
     = frame.hash (fun s => Z.of_nat (String.length s)) sample.twice_declared 3
  /\ is_Some (frame.hash (fun s => Z.of_nat (String.length s))
                sample.twice_declared 1).
Proof.
  split; [lia|].
  apply (Table_equality_by_schema _ sample.twice_declared 1 3 0 2 "edu" "Student"
           [("score"%string, {| frame.field_name := None;
                                frame.field_kind := frame.Integer |})] []);
    reflexivity.
Defined.

(** ** The combinators of a table *)

Lemma Query_new_extends derived src cs pre grp post ord rws h :
  exists new, snd (frame.Query_new derived src cs pre grp post ord rws h)
              = h ++ new
  /\ forall r, fst (frame.Query_new derived src cs pre grp post ord rws h)
               = Ok r ->
       r = length h /\ exists q, new = [frame.Query q].
Proof.
  unfold frame.Query_new.
  destruct (negb _).
  - exists []. simpl. rewrite app_nil_r. split; [done|]. intros r Hr. done.
  - unfold frame.bind, frame.lift, frame.alloc.
    destruct (frame.make_ordering ord) as [o|e]; simpl.
    + eexists. split; [done|]. intros r [= <-]. eauto.
    + exists []. rewrite app_nil_r. split; [done|]. intros r Hr. done.
Qed.

(** C7: [limit(count, offset)] raises [Invalid] when the count or the
    offset is negative and leaves the store as it was; otherwise it returns
    a new query on the table, holding the window (count, offset) and
    nothing else. An omitted offset is 0. *)
Theorem limit_window
    (derived : frame.heap -> frame.ref -> frame.Column -> bool)
    (self : frame.ref) (count : Z) (offset : option Z) (h : frame.heap) :
  frame.limit derived self count offset h =
    if ((count <? 0) || (default 0 offset <? 0))%Z then (Raise Invalid, h)
    else (Ok (length h),
          h ++ [frame.Query {| frame.source := self;
                               frame.columns := [];
                               frame.prefilter := None;
                               frame.grouping := [];
                               frame.postfilter := None;
                               frame.ordering := [];
                               frame.rows := Some (count, default 0%Z offset)
                            |}]).
Proof.
  unfold frame.limit, frame.bind, frame.lift, frame.Rows.
  destruct ((count <? 0) || (default 0 offset <? 0))%Z; reflexivity.
Qed.

(** The store only grows under a combinator, by the objects it builds. *)
Lemma invoke_extends derived self c h :
  exists new, snd (frame.invoke derived self c h) = h ++ new
  /\ forall r, fst (frame.invoke derived self c h) = Ok r ->
       length h <= r /\ exists q, (h ++ new) !! r = Some (frame.Query q).
Proof.
  assert (Hq : forall src cs pre grp post ord rws h0,
    exists new, snd (frame.Query_new derived src cs pre grp post ord rws h0)
                = h0 ++ new
    /\ forall r, fst (frame.Query_new derived src cs pre grp post ord rws h0)
                 = Ok r ->
         length h0 <= r /\ exists q, (h0 ++ new) !! r = Some (frame.Query q)).
  { intros. destruct (Query_new_extends derived src cs pre grp post ord rws h0)
      as (new & Hn & Hr).
    exists new. split; [done|]. intros r E. destruct (Hr r E) as (-> & q & ->).
    split; [done|]. exists q. by rewrite lookup_app_r, Nat.sub_diag. }
  assert (Hs : forall o src cs pre grp post ord rws,
    exists new,
      snd (frame.bind (frame.alloc o)
             (fun s => frame.Query_new derived (src s) cs pre grp post ord rws) h)
      = h ++ new
      /\ forall r,
        fst (frame.bind (frame.alloc o)
               (fun s => frame.Query_new derived (src s) cs pre grp post ord rws) h)
        = Ok r ->
        length h <= r /\ exists q, (h ++ new) !! r = Some (frame.Query q)).
  { intros. unfold frame.bind, frame.alloc.
    destruct (Hq (src (length h)) cs pre grp post ord rws (h ++ [o]))
      as (new & Hn & Hr).
    exists (o :: new). rewrite Hn.
    split; [by rewrite <- app_assoc|].
    intros r E. destruct (Hr r E) as (Hl & q & Hq').
    rewrite length_app in Hl. simpl in Hl. split; [lia|].
    exists q. by rewrite <- app_assoc in Hq'. }
  destruct c; cbn [frame.invoke];
    unfold frame.select, frame.where_, frame.having,
    frame.groupby, frame.orderby, frame.join, frame.union,
    frame.intersection, frame.difference, frame.Join_new, frame.Set_new;
    try apply Hq; try apply (Hs _ (fun s => s)).
  (* limit: the window is built first *)
  unfold frame.limit, frame.bind, frame.lift.
  destruct (frame.Rows count (default 0%Z offset)) as [r|e]; [apply Hq|].
  exists []. simpl. rewrite app_nil_r. split; [done|]. intros r E. done.
Qed.

Lemma direction_raises t e :
  frame.direction t = Raise e -> e = Invalid.
Proof.
  destruct t as [d|s]; simpl; [done|].
  destruct (String.eqb s "ascending"); [done|].
  destruct (String.eqb s "descending"); [done|]. congruence.
Qed.

Lemma make_ordering_raises args e :
  frame.make_ordering args = Raise e -> e = Invalid.
Proof.
  remember (length args) as n eqn:Hn. revert args Hn.
  induction n as [n IH] using lt_wf_ind. intros args Hn.
  assert (Hpair : forall c t rest,
            length rest < n ->
            match frame.direction t, frame.make_ordering rest with
            | Ok d, Ok l => Ok ((c, d) :: l)
            | Raise e, _ | _, Raise e => Raise e
            end = Raise e -> e = Invalid).
  { intros c t rest Hlt.
    destruct (frame.direction t) as [d|e'] eqn:Ed.
    - destruct (frame.make_ordering rest) as [l|e''] eqn:Er; [done|].
      intros [= <-]. by apply (IH _ Hlt rest).
    - destruct (frame.make_ordering rest); intros [= <-];
        by apply direction_raises in Ed. }
  destruct args as [|[c|t|c t] rest]; simpl in *; subst n.
  - done.
  - destruct rest as [|[c'|t'|c' t'] rest'].
    + done.
    + destruct (frame.make_ordering (frame.OColumn c' :: rest')) eqn:Er;
        [done|]. intros [= <-].
      apply (IH (length (frame.OColumn c' :: rest'))) in Er; simpl; auto.
    + apply Hpair. simpl. lia.
    + destruct (frame.make_ordering (frame.OPair c' t' :: rest')) eqn:Er;
        [done|]. intros [= <-].
      apply (IH (length (frame.OPair c' t' :: rest'))) in Er; simpl; auto.
  - congruence.
  - apply Hpair. lia.
Qed.

(** What a call of a combinator on a table comes to: a new query that
    reads the receiver when the arguments are accepted, and [Invalid] with
    the store as it was when they are not. *)
Lemma invoke_outcome derived (h : frame.heap) self s c :
  h !! self = Some (frame.Table s) ->
  (frame.accepted derived h self c = true ->
   exists a d new,
     frame.invoke derived self c h = (Ok a, h ++ new)
     /\ h !! a = None
     /\ (h ++ new) !! a = Some (frame.Query d)
     /\ frame.reads (h ++ new) self d = true)
  /\ (frame.accepted derived h self c = false ->
      frame.invoke derived self c h = (Raise Invalid, h)).
Proof.
  intros Hself.
  assert (Hdirect : forall cs pre grp post ord rws,
    forallb (derived h self) grp = true ->
    from_option (derived h self) true post = true ->
    is_ok (frame.make_ordering ord) = true ->
    exists a d new,
      frame.Query_new derived self cs pre grp post ord rws h
      = (Ok a, h ++ new)
      /\ h !! a = None
      /\ (h ++ new) !! a = Some (frame.Query d)
      /\ frame.reads (h ++ new) self d = true).
  { intros cs pre grp post ord rws Hg Hp Ho.
    unfold frame.Query_new, frame.bind, frame.lift, frame.alloc.
    rewrite Hg, Hp. cbn [andb negb].
    destruct (frame.make_ordering ord) as [o|e]; [|done].
    eexists _, _, _. split; [done|].
    split; [by apply lookup_ge_None_2|].
    split; [by rewrite lookup_app_r, Nat.sub_diag|].
    unfold frame.reads. cbn [frame.source].
    rewrite (lookup_app_l_Some _ _ _ _ Hself). apply Nat.eqb_refl. }
  assert (Hvia : forall o,
    (match o with
     | frame.Join l _ _ _ | frame.Set_ l _ _ => l = self
     | _ => False
     end) ->
    exists a d new,
      frame.bind (frame.alloc o)
        (fun j => frame.Query_new derived j [] None [] None [] None) h
      = (Ok a, h ++ new)
      /\ h !! a = None
      /\ (h ++ new) !! a = Some (frame.Query d)
      /\ frame.reads (h ++ new) self d = true).
  { intros o Ho.
    unfold frame.Query_new, frame.bind, frame.lift, frame.alloc. simpl.
    rewrite length_app. simpl.
    eexists _, _, [o; _]. rewrite <- app_assoc. simpl.
    split; [done|]. split; [apply lookup_ge_None_2; lia|].
    split.
    - rewrite lookup_app_r by lia.
      replace (length h + 1 - length h) with 1 by lia. done.
    - unfold frame.reads. cbn [frame.source].
      rewrite lookup_app_r by lia. rewrite Nat.sub_diag. simpl.
      destruct o; try done; subst; apply Nat.eqb_refl. }
  split.
  - intros Hacc. destruct c; cbn [frame.invoke frame.accepted] in *;
      unfold frame.select, frame.where_, frame.having, frame.groupby,
        frame.orderby, frame.join, frame.union, frame.intersection,
        frame.difference, frame.Join_new, frame.Set_new;
      try (by apply Hdirect); try (by apply Hvia).
    unfold frame.limit, frame.bind, frame.lift, frame.Rows.
    apply andb_true_iff in Hacc as [Hc Ho].
    apply Z.leb_le in Hc, Ho.
    rewrite (proj2 (Z.ltb_ge _ _) Hc), (proj2 (Z.ltb_ge _ _) Ho).
    cbn [orb]. by apply Hdirect.
  - intros Hacc. destruct c; cbn [frame.invoke frame.accepted] in *;
      try discriminate Hacc;
      unfold frame.having, frame.groupby, frame.orderby, frame.limit,
        frame.Query_new, frame.bind, frame.lift, frame.Rows.
    + cbn [forallb from_option andb]. by rewrite Hacc.
    + rewrite Hacc. done.
    + cbn [forallb from_option andb negb].
      destruct (frame.make_ordering columns) as [o|e] eqn:E; [done|].
      by apply make_ordering_raises in E as ->.
    + apply andb_false_iff in Hacc.
      assert (Hneg : ((count <? 0) || (default 0 offset <? 0))%Z = true).
      { apply orb_true_iff.
        destruct Hacc as [H|H]; apply Z.leb_gt in H;
          [left|right]; by apply Z.ltb_lt. }
      by rewrite Hneg.
Qed.

(** C8: whatever combinator is invoked on a table, with whatever
    arguments, every object of the store is afterwards what it was before,
    so the receiver shows the same schema and the same fields. Each of the
    ten combinators returns when its arguments are accepted, and what it
    returns is a query that did not exist before and reads the receiver;
    select, where, join, union, intersection and difference always
    return; a call whose arguments are not accepted raises [Invalid] and
    leaves the store as it was. *)
Theorem combinators_do_not_mutate
    (derived : frame.heap -> frame.ref -> frame.Column -> bool)
    (h : frame.heap) (self s : frame.ref) (m q : string)
    (fs : list (string * frame.etlField)) (c : frame.combinator) :
  h !! self = Some (frame.Table s) ->
  h !! s = Some (frame.Schema m q fs) ->
  (forall x o, h !! x = Some o ->
     snd (frame.invoke derived self c h) !! x = Some o)
  /\ frame.observe (snd (frame.invoke derived self c h)) self
     = frame.observe h self
  /\ (forall r, fst (frame.invoke derived self c h) = Ok r ->
        h !! r = None
        /\ exists d, snd (frame.invoke derived self c h) !! r
                     = Some (frame.Query d))
  /\ (frame.unconditional c = true ->
      is_ok (fst (frame.invoke derived self c h)) = true)
  /\ (frame.accepted derived h self c = true ->
      exists r d,
        fst (frame.invoke derived self c h) = Ok r
        /\ h !! r = None
        /\ snd (frame.invoke derived self c h) !! r = Some (frame.Query d)
        /\ frame.reads (snd (frame.invoke derived self c h)) self d = true)
  /\ (frame.accepted derived h self c = false ->
      frame.invoke derived self c h = (Raise Invalid, h))
  /\ (frame.unconditional c = true ->
      frame.accepted derived h self c = true).
Proof.
  intros Hself Hs.
  assert (Hret : frame.unconditional c = true ->
                 is_ok (fst (frame.invoke derived self c h)) = true).
  { destruct c; intros Hc; try discriminate Hc; reflexivity. }
  destruct (invoke_outcome derived h self s c Hself) as [Hok Hbad].
  destruct (invoke_extends derived self c h) as (new & Hnew & Hr).
  assert (Hkeep : forall x o, h !! x = Some o -> (h ++ new) !! x = Some o).
  { intros x o Hx. by apply lookup_app_l_Some. }
  split; [by rewrite Hnew|]. split; [|split; [|split; [exact Hret|]]].
  - rewrite Hnew.
    unfold frame.observe, frame.Table_getattr, frame.Table_schema.
    rewrite (Hkeep _ _ Hself), Hself, (Hkeep _ _ Hs), Hs. reflexivity.
  - intros r E. rewrite Hnew. destruct (Hr r E) as (Hl & d & Hd).
    split; [by apply lookup_ge_None_2|eauto].
  - split; [|split; [exact Hbad|]].
    + intros Hacc. destruct (Hok Hacc) as (a & d & new' & -> & H1 & H2 & H3).
      exists a, d. done.
    + by destruct c.
Qed.

Lemma combinators_do_not_mutate_witness :
  let h := sample.twice_declared in
  let score := frame.Field 1 "score" frame.Integer in
  Forall (fun c =>
            exists r d,
              fst (frame.invoke (fun _ _ _ => true) 1 c h) = Ok r
              /\ h !! r = None
              /\ snd (frame.invoke (fun _ _ _ => true) 1 c h) !! r
                 = Some (frame.Query d)
              /\ frame.reads
                   (snd (frame.invoke (fun _ _ _ => true) 1 c h)) 1 d
                 = true)
    [frame.CSelect [score]; frame.CWhere score; frame.CHaving score;
     frame.CJoin 3 score None; frame.CGroupby [score];
     frame.COrderby [frame.OColumn score;
                     frame.ODirection (frame.Token "descending")];
     frame.CLimit 10 None; frame.CUnion 3; frame.CIntersection 3;
     frame.CDifference 3].
Proof.
  intros h score.
  repeat constructor;
    apply (combinators_do_not_mutate (fun _ _ _ => true) h 1 0
             "edu" "Student"
             [("score"%string, {| frame.field_name := None;
                                  frame.field_kind := frame.Integer |})]);
    reflexivity.
Defined.

(** ** Prepared statements *)

Section PreparedStatement.
Context {Query Element Expression : Type}.
Variable where_ : Query -> Expression -> Query.
Variable ge lt : Element -> Native -> Expression.

Let call := extract.Prepared_call where_ ge lt.

(** What the call does without an ordinal column: it raises [Unexpected]
    when the lower or the upper bound is truthy, and returns the base
    query when both are falsy, [None] or not. *)
Theorem unbounded_without_ordinal (self : extract.Prepared)
    (lower upper : Native) :
  extract.ordinal self = None ->
  (truthy lower = true \/ truthy upper = true ->
   call self lower upper = Raise Unexpected)
  /\ (truthy lower = false -> truthy upper = false ->
      call self lower upper = Ok (extract.query self))
  /\ call self NNone NNone = Ok (extract.query self).
Proof.
  intros Hord. unfold call, extract.Prepared_call. rewrite Hord.
  split; [|split].
  - intros [-> | ->]; [done|]. by rewrite orb_true_r.
  - by intros -> ->.
  - done.
Qed.

(** C10: with an ordinal column the call never raises; a truthy lower
    bound adds the filter [ordinal >= lower], then a truthy upper bound
    adds [ordinal < upper]; a falsy bound, such as 0 or [None], adds
    nothing; without an ordinal column two falsy bounds raise nothing. *)
Theorem bounds_by_truthiness (query : Query) (ordinal : Element)
    (lower upper : Native) :
  let bounded := {| extract.query := query;
                    extract.ordinal := Some ordinal |} in
  let unbounded := {| extract.query := query; extract.ordinal := None |} in
  call bounded lower upper =
    Ok (match truthy lower, truthy upper with
        | true, true =>
            where_ (where_ query (ge ordinal lower)) (lt ordinal upper)
        | true, false => where_ query (ge ordinal lower)
        | false, true => where_ query (lt ordinal upper)
        | false, false => query
        end)
  /\ truthy (NInt 0) = false /\ truthy NNone = false
  /\ call bounded (NInt 0) NNone = Ok query
  /\ (truthy lower || truthy upper = false ->
      call unbounded lower upper = Ok query).
Proof.
  intros bounded unbounded. repeat split.
  - unfold call, extract.Prepared_call, bounded. simpl.
    destruct (truthy lower), (truthy upper); reflexivity.
  - intros Hf. unfold call, extract.Prepared_call, unbounded. simpl.
    by rewrite Hf.
Qed.
End PreparedStatement.

(** C3: the code at the failing input. Without an ordinal column a lower
    bound of 0, which is a bound that was supplied, raises nothing and the
    base query comes back, where a lower bound of 1 raises [Unexpected]:
    the guard tests the truth of the bound, not whether it was given. *)
Lemma supplied_zero_not_rejected :
  supplied (NInt 0) = true
  /\ extract.Prepared_call sample.where_ sample.ge sample.lt
       {| extract.query := []; extract.ordinal := None |} (NInt 0) NNone
     = Ok []
  /\ extract.Prepared_call sample.where_ sample.ge sample.lt
       {| extract.query := []; extract.ordinal := @None string |}
       (NInt 1) NNone
     = Raise Unexpected.
Proof. repeat split; reflexivity. Qed.

Lemma unbounded_without_ordinal_witness :
  extract.Prepared_call sample.where_ sample.ge sample.lt
    {| extract.query := []; extract.ordinal := None |}
    (NDate 2020 7 9) NNone
  = Raise Unexpected.
Proof.
  apply (unbounded_without_ordinal sample.where_ sample.ge sample.lt
           {| extract.query := []; extract.ordinal := @None string |}).
  - reflexivity.
  - left. reflexivity.
Defined.

Lemma bounds_by_truthiness_witness :
  extract.Prepared_call sample.where_ sample.ge sample.lt
    {| extract.query := []; extract.ordinal := None |} (NInt 0) (NStr "")
  = Ok [].
Proof.
  apply (bounds_by_truthiness sample.where_ sample.ge sample.lt []
           "day"%string (NInt 0) (NStr "")).
  reflexivity.
Defined.

(** ** The slicer *)

Section SlicerActor.
Context {A C : Type}.
Variable slicer : list A -> extract.selection -> result (extract.sliced A).

(** C2, amended: with F feature columns and L >= 1 label columns the
    actor holds the feature slice [0, F) and, for the label, the slice
    [F, F+L) when L > 1 and the index F when L = 1; applied to a batch it
    fails the assertion unless the batch has F+L columns, and otherwise
    hands the batch to the slicer once with each selection. *)
Theorem slicer_split (features labels : list C) (columns : list A) :
  1 <= length labels ->
  let F := length features in
  let L := length labels in
  let actor := extract.Actor_init slicer features labels in
  extract._features actor = extract.Slice None F
  /\ extract._label_sel actor =
       (if 1 <? L then extract.Slice (Some F) (F + L) else extract.Index F)
  /\ (length columns ≠ F + L ->
      extract.Actor_apply actor columns = Raise AssertionError)
  /\ (length columns = F + L ->
      extract.Actor_apply actor columns =
        match slicer columns (extract.Slice None F) with
        | Ok f =>
            match slicer columns
                    (if 1 <? L then extract.Slice (Some F) (F + L)
                     else extract.Index F) with
            | Ok l => Ok (f, l)
            | Raise e => Raise e
            end
        | Raise e => Raise e
        end).
Proof.
  intros HL F L actor.
  assert (Hstop : match extract._label_sel actor with
                  | extract.Slice _ stop => stop
                  | extract.Index i => i + 1
                  end = F + L).
  { unfold actor, extract.Actor_init. simpl. fold F L.
    destruct (1 <? L) eqn:E; simpl.
    - reflexivity.
    - apply Nat.ltb_ge in E. unfold L in *. lia. }
  split; [done|]. split; [done|]. split.
  - intros Hne. unfold extract.Actor_apply. rewrite Hstop.
    apply Nat.eqb_neq in Hne. by rewrite Hne.
  - intros He. unfold extract.Actor_apply. rewrite Hstop.
    apply Nat.eqb_eq in He. rewrite He. reflexivity.
Qed.
End SlicerActor.

(** The plain positional slicer, made for a schema of F+L columns, on a
    batch of F+L columns: the features are the first F columns; the label
    is the remaining L columns when L > 1 and the column at F when
    L = 1. *)
Lemma positional_slicer_split {A C} (fs ls : list C) (columns : list A) :
  length columns = length fs + length ls ->
  extract.Slicer_call (fs ++ ls) columns (extract.Slice None (length fs))
    = Ok (extract.Columns (take (length fs) columns))
  /\ extract.Slicer_call (fs ++ ls) columns
       (extract.Slice (Some (length fs)) (length fs + length ls))
     = Ok (extract.Columns (drop (length fs) columns))
  /\ (length ls = 1 ->
      exists c, extract.Slicer_call (fs ++ ls) columns
                  (extract.Index (length fs))
                = Ok (extract.Column c)
                /\ drop (length fs) columns = [c]).
Proof.
  intros Hlen. unfold extract.Slicer_call, extract.getitem. simpl.
  split; [|split].
  - by rewrite Nat.sub_0_r.
  - replace (length fs + length ls - length fs) with (length ls) by lia.
    rewrite take_ge; [done|]. rewrite length_drop. lia.
  - intros H1.
    destruct ls as [|l [|l' ls]]; simpl in H1; try lia.
    rewrite list_lookup_middle by done.
    destruct (drop (length fs) columns) as [|c [|c' rest]] eqn:E.
    + apply (f_equal length) in E. rewrite length_drop in E. simpl in *. lia.
    + exists c. split; [|done].
      assert (Hc : columns !! (length fs + 0) = Some c).
      { rewrite <- lookup_drop, E. done. }
      rewrite Nat.add_0_r in Hc. by rewrite Hc.
    + apply (f_equal length) in E. rewrite length_drop in E. simpl in *. lia.
Qed.

(** C2 as stated fails for an empty label list: the batch of F+L = 1
    columns is refused, and a batch of 2 columns is accepted. *)
Lemma no_label_expects_one_more_column :
  let actor := extract.Actor_init (extract.Slicer_call [0; 1]) [0]
                 ([] : list nat) in
  extract.Actor_apply actor ["a"%string] = Raise AssertionError
  /\ extract.Actor_apply actor ["a"; "b"]%string
     = Ok (extract.Columns ["a"%string], extract.Column "b"%string).
Proof. split; reflexivity. Qed.

Lemma slicer_split_witness :
  extract.Actor_apply
    (extract.Actor_init (extract.Slicer_call [0; 1]) [0] [1])
    ["a"; "b"]%string
  = Ok (extract.Columns ["a"%string], extract.Column "b"%string).
Proof.
  destruct (slicer_split (extract.Slicer_call [0; 1]) [0] [1]
              ["a"; "b"]%string) as (_ & _ & _ & H).
  - simpl. lia.
  - rewrite H; reflexivity.
Defined.

(** ** The source operator *)

Lemma subscribe_fresh (g : flow.Graph) (s p : flow.port) :
  flow.subs g !! s = None ->
  flow.subscribe s p g
  = Ok (tt, {| flow.nodes := flow.nodes g;
               flow.subs := <[s := p]> (flow.subs g) |}).
Proof. intros H. unfold flow.subscribe. by rewrite H. Qed.

Lemma wf_unsubscribed (g : flow.Graph) (n i : nat) :
  flow.wf g -> length (flow.nodes g) <= n -> flow.subs g !! (n, i) = None.
Proof.
  intros Hwf Hn. destruct (flow.subs g !! (n, i)) as [q|] eqn:E; [|done].
  apply Hwf in E. simpl in E. lia.
Qed.

(** C6: composing a source operator onto anything but the origin raises
    [Invalid]. Onto the origin it returns a segment whose apply and train
    paths start at two new workers without inputs, made from the apply and
    the train spec. Without a label spec there is no label path and nothing
    is wired. With one, a new worker with 1 input and 2 outputs takes
    output 0 of the train worker; its output 0 feeds a new placeholder, the
    tail of the train path, and its output 1 another, the tail of the label
    path, which starts where the train path does. *)
Theorem compose_source (self : extract.Operator) (left : flow.Composable)
    (g : flow.Graph) :
  flow.wf g ->
  let a := length (flow.nodes g) in
  let t := a + 1 in
  let train_tail := a + 2 in
  let label_tail := a + 3 in
  let ex := a + 4 in
  let wa := flow.Worker (extract._apply self) 0 1 in
  let wt := flow.Worker (extract._train self) 0 1 in
  (left ≠ flow.Origin -> extract.compose self left g = Raise Invalid)
  /\ (left = flow.Origin ->
      match extract._label self with
      | None =>
          extract.compose self left g =
            Ok ({| flow.apply := flow.Path_new a;
                   flow.train := flow.Path_new t;
                   flow.label := None |},
                {| flow.nodes := flow.nodes g ++ [wa; wt];
                   flow.subs := flow.subs g |})
      | Some label =>
          extract.compose self left g =
            Ok ({| flow.apply := flow.Path_new a;
                   flow.train := {| flow.head := t;
                                    flow.tail := train_tail |};
                   flow.label := Some {| flow.head := t;
                                         flow.tail := label_tail |} |},
                {| flow.nodes :=
                     flow.nodes g ++ [wa; wt; flow.Future; flow.Future;
                                      flow.Worker label 1 2];
                   flow.subs :=
                     <[(label_tail, 0) := (ex, 1)]>
                       (<[(train_tail, 0) := (ex, 0)]>
                          (<[(ex, 0) := (t, 0)]> (flow.subs g))) |})
      end)
  /\ flow.nodes g !! a = None /\ flow.nodes g !! t = None.
Proof.
  intros Hwf a t train_tail label_tail ex wa wt.
  split; [|split; [|split; apply lookup_ge_None_2; unfold t, a; lia]].
  - intros Hl. unfold extract.compose.
    destruct left; [done|reflexivity|reflexivity].
  - intros ->. unfold extract.compose. simpl.
    unfold flow.bind, flow.new_node, flow.ret. simpl.
    destruct (extract._label self) as [label|]; simpl.
    + rewrite !length_app. simpl.
      rewrite subscribe_fresh; simpl.
      2:{ apply wf_unsubscribed; [done|lia]. }
      rewrite subscribe_fresh; simpl.
      2:{ rewrite lookup_insert_ne by (intros [=]; lia).
          apply wf_unsubscribed; [done|lia]. }
      rewrite subscribe_fresh; simpl.
      2:{ rewrite !lookup_insert_ne by (intros [=]; lia).
          apply wf_unsubscribed; [done|lia]. }
      rewrite <- !app_assoc. simpl.
      unfold flow.Path_new, flow.extend, flow.publisher. simpl.
      rewrite <- !Nat.add_assoc. reflexivity.
    + rewrite <- app_assoc. simpl. rewrite length_app. simpl.
      reflexivity.
Qed.

Lemma compose_source_witness :
  let op := extract.Operator_init
              {| flow.actor := "reader"; flow.params := [] |} None
              (Some {| flow.actor := "slicer"; flow.params := [] |}) in
  extract.compose op (flow.Stage "mapper") flow.empty = Raise Invalid
  /\ is_ok (extract.compose op flow.Origin flow.empty) = true.
Proof.
  intros op.
  assert (Hwf : flow.wf flow.empty).
  { intros p q H. unfold flow.empty in H. simpl in H.
    by rewrite lookup_empty in H. }
  split.
  - apply (compose_source op (flow.Stage "mapper") flow.empty Hwf). done.
  - reflexivity.
Defined.

(** ** Function actors *)

Section FunctionActor.
Context {V : Type}.
Implicit Types (args : list V) (kwargs params : gmap string V).

Lemma bind_positional_raises ps args kwargs e :
  wrapped.bind_positional ps args kwargs = Raise e -> e = TypeError.
Proof.
  revert ps. induction args as [|a args IH]; intros [|p ps]; simpl;
    try congruence.
  - destruct (wrapped.pkind p); try congruence.
    case_bool_decide; congruence.
  - destruct (wrapped.pkind p); try congruence; eauto.
    case_bool_decide; [congruence|eauto].
Qed.

Lemma bind_keywords_raises ps kwargs b e :
  wrapped.bind_keywords ps kwargs b = Raise e -> e = TypeError.
Proof.
  revert kwargs b. induction ps as [|p ps IH]; intros kwargs b; simpl.
  - destruct (_ || _); congruence.
  - destruct (wrapped.pkind p); eauto;
      destruct (kwargs !! wrapped.name p); eauto; congruence.
Qed.

Lemma bind_partial_raises sig args kwargs e :
  wrapped.bind_partial sig args kwargs = Raise e -> e = TypeError.
Proof.
  unfold wrapped.bind_partial.
  destruct (wrapped.bind_positional sig args kwargs) eqn:E.
  - apply bind_keywords_raises.
  - intros [= <-]. by apply bind_positional_raises in E.
Qed.

Lemma bind_positional_rest ps args kwargs rest :
  wrapped.bind_positional ps args kwargs = Ok rest ->
  forall p, p ∈ rest -> p ∈ ps.
Proof.
  revert ps. induction args as [|a args IH]; intros [|p ps]; simpl;
    try congruence.
  - destruct (wrapped.pkind p); try case_bool_decide; try congruence;
      intros [= <-] q Hq; try done; by right.
  - destruct (wrapped.pkind p); try case_bool_decide; try congruence;
      try (intros [= <-] q Hq; by right);
      intros Hrest q Hq; right; by apply (IH ps).
Qed.

Lemma too_many_positional ps args kwargs :
  (forall p, p ∈ ps -> wrapped.pkind p ≠ wrapped.VAR_POSITIONAL) ->
  length ps < length args ->
  wrapped.bind_positional ps args kwargs = Raise TypeError.
Proof.
  revert ps. induction args as [|a args IH]; intros [|p ps] Hk Hl; simpl in *;
    try lia; try done.
  assert (Hps : forall q, q ∈ ps ->
                  wrapped.pkind q ≠ wrapped.VAR_POSITIONAL).
  { intros q Hq. apply Hk. by right. }
  assert (Hp := Hk p ltac:(by left)).
  destruct (wrapped.pkind p); try done; try case_bool_decide; try done;
    apply IH; try done; lia.
Qed.

Lemma unexpected_keyword ps kwargs k :
  (forall p, p ∈ ps ->
     wrapped.pkind p ≠ wrapped.VAR_KEYWORD /\ wrapped.name p ≠ k) ->
  is_Some (kwargs !! k) ->
  wrapped.bind_keywords ps kwargs false = Raise TypeError.
Proof.
  revert kwargs. induction ps as [|p ps IH]; intros kwargs Hk Hin; simpl.
  - rewrite bool_decide_eq_false_2; [done|].
    intros Hd. apply elem_of_dom in Hin. rewrite Hd in Hin.
    by apply not_elem_of_empty in Hin.
  - assert (Hps : forall q, q ∈ ps ->
                    wrapped.pkind q ≠ wrapped.VAR_KEYWORD
                    /\ wrapped.name q ≠ k).
    { intros q Hq. apply Hk. by right. }
    destruct (Hk p ltac:(by left)) as [Hp Hn].
    destruct (wrapped.pkind p); try done; try (by apply IH);
      destruct (kwargs !! wrapped.name p); try done; try (by apply IH);
      apply IH; try done; by rewrite lookup_delete_ne.
Qed.

(** C4, amended: making an actor of a plain function binds the extra
    positional and keyword arguments to the signature of the function less
    its first parameter, after Python has refused a keyword called [self]
    or [function]. The one error that raises is [TypeError], never
    [Invalid]: so for more positional arguments than the remaining
    parameters when none of them is starred, and for a keyword that none
    of them names when there is no double-starred one. The wrapper passes
    the arguments of the call, over its own keyword parameters, to the
    actor, and reports is_stateful() = False. *)
Theorem function_arguments_validated (function : wrapped.Callable)
    (params : gmap string V) (args : list V) (kwargs : gmap string V) :
  let rest := drop 1 (wrapped.signature function) in
  (forall e, wrapped.Actor_init function args kwargs = Raise e ->
     e = TypeError)
  /\ is_ok (wrapped.Actor_init function args kwargs)
     = negb (wrapped.names_any ["self"; "function"]%string kwargs)
       && is_ok (wrapped.bind_partial rest args kwargs)
  /\ ((forall p, p ∈ rest -> wrapped.pkind p ≠ wrapped.VAR_POSITIONAL) ->
      length rest < length args ->
      wrapped.Actor_init function args kwargs = Raise TypeError)
  /\ (forall k,
        (forall p, p ∈ rest ->
           wrapped.pkind p ≠ wrapped.VAR_KEYWORD /\ wrapped.name p ≠ k) ->
        is_Some (kwargs !! k) ->
        wrapped.Actor_init function args kwargs = Raise TypeError)
  /\ (forall w,
        wrapped.Function_actor (Some function) params
        = Ok (wrapped.FWrapped w) ->
        wrapped.Function_is_stateful w = false
        /\ wrapped.Function_call w args kwargs
           = (if wrapped.names_any ["self"]%string kwargs
              then Raise TypeError
              else wrapped.Actor_init function args (kwargs ∪ params))
        /\ (forall e, wrapped.Function_call w args kwargs = Raise e ->
              e = TypeError)).
Proof.
  intros rest.
  assert (Hraise : forall k e,
            wrapped.Actor_init function args k = Raise e -> e = TypeError).
  { intros k e. unfold wrapped.Actor_init.
    destruct (wrapped.names_any _ k); [by intros [= <-]|].
    destruct (wrapped.bind_partial _ _ _) eqn:E; [done|].
    intros [= <-]. by apply bind_partial_raises in E. }
  split; [apply Hraise|].
  unfold wrapped.Actor_init. fold rest.
  split; [|split; [|split]].
  - destruct (wrapped.names_any _ kwargs); [done|].
    by destruct (wrapped.bind_partial rest args kwargs).
  - intros Hk Hl. destruct (wrapped.names_any _ kwargs); [done|].
    unfold wrapped.bind_partial. by rewrite too_many_positional.
  - intros k Hk Hin. destruct (wrapped.names_any _ kwargs); [done|].
    unfold wrapped.bind_partial.
    destruct (wrapped.bind_positional rest args kwargs) as [r|e] eqn:E.
    + rewrite (unexpected_keyword r kwargs k); [done| |done].
      intros p Hp. apply Hk. by apply (bind_positional_rest _ _ _ _ E).
    + by apply bind_positional_raises in E as ->.
  - intros w. unfold wrapped.Function_actor, wrapped.Function_init.
    destruct (wrapped.names_any _ params); [done|].
    destruct (wrapped.isfunction function); [|done].
    intros [= <-]. split; [done|]. split; [done|].
    intros e. unfold wrapped.Function_call.
    cbn [wrapped.f_actor wrapped.f_params].
    destruct (wrapped.names_any ["self"%string] kwargs);
      [congruence|].
    apply Hraise.
Qed.
End FunctionActor.

(** C4 as stated fails: a keyword that the function does not take and a
    positional argument too many are refused with [TypeError], which is
    not [Invalid]; declaring the wrapper refuses neither. *)
Lemma unbindable_argument_not_Invalid :
  wrapped.Actor_init sample.scale [] {[ "unknown"%string := 1 ]}
  = Raise TypeError
  /\ wrapped.Actor_init sample.scale [2; 3] ∅ = Raise TypeError
  /\ TypeError ≠ Invalid
  /\ is_ok (wrapped.Function_actor (Some sample.scale)
              {[ "unknown"%string := 1 ]})
     = true.
Proof. repeat split; vm_compute; done. Qed.

Lemma function_arguments_validated_witness :
  wrapped.Actor_init sample.scale [2; 3; 4] ∅ = Raise TypeError.
Proof.
  apply (function_arguments_validated sample.scale ∅ [2; 3; 4] ∅).
  - intros p Hp. vm_compute in Hp.
    repeat (apply elem_of_cons in Hp as [->|Hp]; [done|]).
    by apply elem_of_nil in Hp.
  - simpl. lia.
Defined.

(** ** Class actors *)

Lemma setdefault_lookup (names : list string)
    (m : gmap string wrapped.mvalue) (k : string) :
  foldl (fun m n => match m !! n with
                    | Some _ => m
                    | None => <[n := wrapped.MStr n]> m
                    end) m names !! k
  = match m !! k with
    | Some v => Some v
    | None => if bool_decide (k ∈ names) then Some (wrapped.MStr k) else None
    end.
Proof.
  revert m. induction names as [|n names IH]; intros m; simpl.
  - by destruct (m !! k).
  - rewrite IH. destruct (decide (k = n)) as [->|Hne].
    + destruct (m !! n) eqn:E; [by rewrite E|].
      rewrite lookup_insert_eq.
      by rewrite (bool_decide_eq_true_2 (n ∈ n :: names)) by left.
    + assert (Hk : (match m !! n with
                    | Some _ => m
                    | None => <[n := wrapped.MStr n]> m
                    end) !! k = m !! k).
      { destruct (m !! n); [done|]. by rewrite lookup_insert_ne. }
      rewrite Hk. destruct (m !! k); [done|].
      rewrite (bool_decide_ext (k ∈ names) (k ∈ n :: names)); [done|].
      rewrite elem_of_cons. tauto.
Qed.

Lemma setdefaults_lookup (mapping : gmap string wrapped.mvalue) (k : string) :
  wrapped.setdefaults mapping !! k
  = match mapping !! k with
    | Some v => Some v
    | None => if bool_decide (k ∈ wrapped.methods)
              then Some (wrapped.MStr k) else None
    end.
Proof. apply setdefault_lookup. Qed.

Lemma targets_callable (attrs : gmap string wrapped.member)
    (m : gmap string wrapped.mvalue) :
  forallb (wrapped.callable attrs) (wrapped.targets m) = true
  <-> forall s v, s ≠ "train"%string -> m !! s = Some v ->
        wrapped.callable attrs v = true.
Proof.
  rewrite <- Is_true_true, forallb_True, Forall_forall. unfold wrapped.targets.
  split.
  - intros H s v Hs Hm. apply Is_true_true, H.
    apply list_elem_of_fmap. exists (s, v). split; [done|].
    apply elem_of_map_to_list. by apply map_lookup_filter_Some.
  - intros H v Hv. apply list_elem_of_fmap in Hv as ([s v'] & -> & Hin).
    apply elem_of_map_to_list, map_lookup_filter_Some in Hin as [Hm Hs].
    apply Is_true_true. by apply (H s).
Qed.

(** What the class decorator does for a class that is not an actor
    already and a mapping of names: it raises [Missing] exactly when, for
    some name other than train, the class has no callable under the mapped
    name. Otherwise it returns the wrapper, whatever is or is not found
    under the mapped train name, and the wrapper reports
    is_stateful() = True exactly when the class has an attribute of the
    mapped train name. *)
Theorem class_wrapping (attrs : gmap string wrapped.member)
    (mapping : gmap string wrapped.mvalue) :
  (forall k v, mapping !! k = Some v -> wrapped.is_str v = true) ->
  let full := wrapped.setdefaults mapping in
  let lacking := exists s t, s ≠ "train"%string
                   /\ full !! s = Some (wrapped.MStr t)
                   /\ attrs !! t ≠ Some wrapped.Method in
  let w := {| wrapped.c_actor := attrs; wrapped.c_params := full |} in
  (lacking ->
   wrapped.Class_actor (wrapped.AClass false attrs) mapping = Raise Missing)
  /\ (~ lacking ->
      wrapped.Class_actor (wrapped.AClass false attrs) mapping
      = Ok (wrapped.Wrapped w))
  /\ exists t, full !! "train"%string = Some (wrapped.MStr t)
       /\ wrapped.is_stateful w = Ok (bool_decide (is_Some (attrs !! t))).
Proof.
  intros Hstr full lacking w.
  assert (Hcheck : forallb wrapped.is_str (map_to_list mapping).*2 = true).
  { apply Is_true_true, forallb_True, Forall_forall. intros v Hv.
    apply list_elem_of_fmap in Hv as ([k v'] & -> & Hin).
    apply elem_of_map_to_list in Hin. apply Is_true_true. by apply (Hstr k). }
  assert (Hfull : forall k v, full !! k = Some v -> exists t, v = wrapped.MStr t).
  { intros k v. unfold full. rewrite setdefaults_lookup.
    destruct (mapping !! k) as [v'|] eqn:E.
    - intros [= <-]. apply Hstr in E. destruct v'; [eauto|done].
    - case_bool_decide; [|done]. intros [= <-]. eauto. }
  unfold wrapped.Class_actor. rewrite Hcheck. cbn [negb]. fold full.
  split; [|split].
  - intros (s & t & Hs & Hm & Ht).
    destruct (forallb (wrapped.callable attrs) (wrapped.targets full))
      eqn:E; [|done].
    pose proof (proj1 (targets_callable attrs full) E s _ Hs Hm) as E'.
    simpl in E'.
    destruct (attrs !! t) as [[]|]; congruence.
  - intros Hnl.
    destruct (forallb (wrapped.callable attrs) (wrapped.targets full))
      eqn:E; [done|].
    exfalso. apply not_true_iff_false in E.
    apply E, (proj2 (targets_callable attrs full)).
    intros s v Hs Hm. destruct (Hfull _ _ Hm) as [t ->]. simpl.
    destruct (attrs !! t) as [[]|] eqn:Et; [done| |];
      exfalso; apply Hnl; exists s, t; rewrite Et; done.
  - assert (Ht : is_Some (full !! "train"%string)).
    { unfold full. rewrite setdefaults_lookup.
      destruct (mapping !! "train"%string); [eauto|].
      rewrite bool_decide_eq_true_2; [eauto|].
      unfold wrapped.methods. set_solver. }
    destruct Ht as [v Hv]. destruct (Hfull _ _ Hv) as [t ->].
    exists t. split; [done|]. unfold wrapped.is_stateful. simpl. by rewrite Hv.
Qed.

(** C5: the code at the failing input. The class has the three methods
    asked for and a data attribute [train], so no callable under the train
    name: the decorator does not raise, as the claim says, and the wrapped
    actor reports is_stateful() = True, where the claim and the docstring
    of is_stateful ("has a train method") have False; the other names are
    tested with [callable], this one with [hasattr]. *)
Lemma train_attribute_is_stateful :
  wrapped.callable sample.splitter (wrapped.MStr "train") = false
  /\ wrapped.callable sample.splitter (wrapped.MStr "apply") = true
  /\ exists w, wrapped.Class_actor (wrapped.AClass false sample.splitter) ∅
               = Ok (wrapped.Wrapped w)
               /\ wrapped.is_stateful w = Ok true.
Proof.
  split; [reflexivity|]. split; [reflexivity|].
  eexists. split; vm_compute; reflexivity.
Qed.

Lemma class_wrapping_witness :
  wrapped.Class_actor
    (wrapped.AClass false
       {[ "predict"%string := wrapped.Method;
          "get_params"%string := wrapped.Method;
          "set_params"%string := wrapped.Method ]})
    {[ "apply"%string := wrapped.MStr "transform" ]}
  = Raise Missing.
Proof.
  apply class_wrapping.
  - intros k v H. apply lookup_singleton_Some in H as [_ <-]. reflexivity.
  - exists "apply"%string, "transform"%string.
    split; [done|]. split; vm_compute; done.
Defined.

(** ** Linking *)

Lemma frozen_worker (g : flow.Graph) (n : nat) :
  assembly.frozen g n = true ->
  exists spec szin szout,
    flow.nodes g !! n = Some (flow.Worker spec szin szout)
    /\ forallb (fun a => bool_decide (is_Some a)) (assembly.inputs g n szin)
       = true.
Proof.
  unfold assembly.frozen. destruct (flow.nodes g !! n) as [[spec szin szout|]|];
    [eauto|done|done].
Qed.

Lemma Table_add_known g t n :
  n ∈ assembly.known t -> assembly.Table_add g t n = Ok t.
Proof.
  intros H. unfold assembly.Table_add. by rewrite bool_decide_eq_true_2.
Qed.

Lemma Table_add_new g t n :
  n ∉ assembly.known t -> assembly.frozen g n = true ->
  assembly.Table_add g t n
  = Ok {| assembly.known := {[n]} ∪ assembly.known t;
          assembly.symbols := assembly.symbols t ++ [assembly.symbol g n] |}.
Proof.
  intros Hn Hf. unfold assembly.Table_add.
  rewrite bool_decide_eq_false_2 by done. rewrite Hf. simpl.
  destruct (frozen_worker g n Hf) as (spec & szin & szout & Hw & Hin).
  unfold assembly.symbol, assembly.Symbol_new. rewrite Hw. simpl.
  by rewrite Hin.
Qed.

Lemma dispatch_distinct g reached : forall t,
  (forall n, n ∈ reached -> assembly.frozen g n = true) ->
  assembly.dispatch g t reached
  = Ok {| assembly.known := list_to_set reached ∪ assembly.known t;
          assembly.symbols :=
            assembly.symbols t
            ++ (assembly.symbol g
                  <$> assembly.distinct (assembly.known t) reached) |}.
Proof.
  induction reached as [|n rest IH]; intros t Hf; simpl.
  - destruct t as [k s]. simpl. f_equal. f_equal; [set_solver|].
    by rewrite app_nil_r.
  - unfold assembly.visit_node.
    assert (Hrest : forall m, m ∈ rest -> assembly.frozen g m = true).
    { intros m Hm. apply Hf. by right. }
    case_bool_decide as Hk.
    + rewrite Table_add_known by done. rewrite IH by done.
      f_equal. f_equal. set_solver.
    + rewrite Table_add_new; [|done|apply Hf; by left].
      rewrite IH by done. simpl. f_equal. f_equal; [set_solver|].
      by rewrite <- app_assoc.
Qed.

Lemma distinct_elem seen reached n :
  n ∈ assembly.distinct seen reached <-> n ∈ reached /\ n ∉ seen.
Proof.
  revert seen. induction reached as [|m rest IH]; intros seen; simpl.
  - set_solver.
  - case_bool_decide as Hm.
    + rewrite IH, elem_of_cons.
      split; [tauto|]. intros [[->|H] Hs]; tauto.
    + rewrite !elem_of_cons, IH, not_elem_of_union, not_elem_of_singleton.
      destruct (decide (n = m)) as [->|Hne]; tauto.
Qed.

Lemma distinct_NoDup seen reached : NoDup (assembly.distinct seen reached).
Proof.
  revert seen. induction reached as [|m rest IH]; intros seen; simpl.
  - constructor.
  - case_bool_decide as Hm; [apply IH|].
    constructor; [|apply IH].
    rewrite distinct_elem, not_elem_of_union, not_elem_of_singleton. tauto.
Qed.

Lemma distinct_remove_dups reached :
  assembly.distinct ∅ reached ≡ₚ remove_dups reached.
Proof.
  apply NoDup_Permutation.
  - apply distinct_NoDup.
  - apply NoDup_remove_dups.
  - intros n. rewrite distinct_elem, elem_of_remove_dups.
    split; [tauto|]. intros H. split; [done|]. apply not_elem_of_empty.
Qed.

Lemma symbols_of_distinct g (l : list nat) n :
  NoDup l ->
  length (filter (fun s => assembly.instruction s = assembly.Functor n)
            (assembly.symbol g <$> l))
  = if bool_decide (n ∈ l) then 1 else 0.
Proof.
  induction 1 as [|m l Hm Hl IH]; [done|].
  rewrite fmap_cons, filter_cons. simpl.
  destruct (decide (m = n)) as [->|Hne].
  - rewrite decide_True by done. simpl. rewrite IH.
    rewrite (bool_decide_eq_false_2 (n ∈ l)) by done.
    by rewrite (bool_decide_eq_true_2 (n ∈ n :: l)) by left.
  - rewrite decide_False by congruence. rewrite IH.
    apply (f_equal (fun b : bool => if b then 1 else 0)).
    apply bool_decide_ext. rewrite elem_of_cons. split; [tauto|].
    intros [->|]; done.
Qed.

Lemma arguments_of_ports g c p (indices : list nat) :
  length (filter (fun a => a = assembly.Functor p)
            (omap id ((fun i => (fun q : flow.port => assembly.Functor q.1)
                                  <$> flow.subs g !! (c, i)) <$> indices)))
  = length (filter (fun s => fst <$> flow.subs g !! s = Some p)
              ((fun i => (c, i)) <$> indices)).
Proof.
  induction indices as [|i indices IH]; [done|].
  rewrite !fmap_cons. rewrite (filter_cons _ (c, i)). simpl.
  destruct (flow.subs g !! (c, i)) as [[q j]|]; simpl.
  - rewrite filter_cons. destruct (decide (q = p)) as [->|Hne].
    + rewrite !decide_True by done. simpl. f_equal. apply IH.
    + rewrite !decide_False by congruence. apply IH.
  - apply IH.
Qed.

Lemma references_of_consumers g (l : list nat) p :
  length (filter (fun a => a = assembly.Functor p)
            (concat (assembly.arguments <$> (assembly.symbol g <$> l))))
  = length (assembly.consumers g l p).
Proof.
  unfold assembly.consumers.
  induction l as [|c l IH]; [done|].
  rewrite !fmap_cons, bind_cons. simpl. rewrite !filter_app, !length_app, IH.
  f_equal. unfold assembly.input_ports.
  destruct (flow.nodes g !! c) as [[spec szin szout|]|]; [|done|done].
  apply arguments_of_ports.
Qed.

Lemma once_in_NoDup (l : list nat) n :
  NoDup l -> n ∈ l -> length (filter (fun m => m = n) l) = 1.
Proof.
  induction 1 as [|m l Hm Hl IH]; intros Hin; [by apply elem_of_nil in Hin|].
  rewrite filter_cons. destruct (decide (m = n)) as [->|Hne]; simpl.
  - f_equal. clear IH Hin Hl. induction l as [|x l IH]; [done|].
    rewrite not_elem_of_cons in Hm. rewrite filter_cons.
    rewrite decide_False by (intros ->; tauto). apply IH. tauto.
  - apply IH. apply elem_of_cons in Hin as [->|]; done.
Qed.

Lemma Initializer_accept g reached : forall i,
  (forall n, n ∈ reached -> assembly.frozen g n = true) ->
  facility.accept g i reached
  = {| facility._gids := list_to_set reached ∪ facility._gids i;
       facility.instantiated :=
         reverse (assembly.distinct (facility._gids i) reached)
         ++ facility.instantiated i |}.
Proof.
  unfold facility.accept.
  induction reached as [|n rest IH]; intros i Hf; simpl.
  - destruct i as [k s]. simpl. f_equal. set_solver.
  - assert (Hrest : forall m, m ∈ rest -> assembly.frozen g m = true).
    { intros m Hm. apply Hf. by right. }
    rewrite IH by done. unfold facility.visit_node.
    destruct (frozen_worker g n) as (spec & szin & szout & -> & _);
      [apply Hf; by left|].
    case_bool_decide as Hk; simpl.
    + f_equal. set_solver.
    + rewrite reverse_cons, <- app_assoc. simpl. f_equal. set_solver.
Qed.

(** C1: when the traversal of a path reaches frozen workers only, however
    often it reaches each of them, linking returns a table that holds
    exactly one symbol for every node reached; visiting such a node again
    changes nothing; the instruction of a node is an argument once for
    every input port, of the nodes reached, that the node feeds; and the
    test initializer instantiates every node reached once. *)
Theorem link_deduplicates (g : flow.Graph) (reached : list nat) :
  (forall n, n ∈ reached -> assembly.frozen g n = true) ->
  exists t, assembly.link g reached = Ok t
    /\ (forall n, n ∈ reached ->
          assembly.symbols_of t n = 1 /\ assembly.visit_node g t n = Ok t)
    /\ (forall n, n ∉ reached -> assembly.symbols_of t n = 0)
    /\ (forall n, assembly.references t n
                  = length (assembly.consumers g (remove_dups reached) n))
    /\ (forall n, n ∈ reached ->
          length (filter (fun m => m = n)
                    (facility.instantiated
                       (facility.accept g facility.Initializer_init reached)))
          = 1).
Proof.
  intros Hf. eexists. split; [by apply dispatch_distinct|]. simpl.
  pose proof (distinct_NoDup ∅ reached) as Hnd.
  split; [|split; [|split]].
  - intros n Hn. split.
    + unfold assembly.symbols_of. simpl. rewrite symbols_of_distinct by done.
      rewrite bool_decide_eq_true_2; [done|].
      apply distinct_elem. split; [done|apply not_elem_of_empty].
    + apply Table_add_known. simpl. set_solver.
  - intros n Hn. unfold assembly.symbols_of. simpl.
    rewrite symbols_of_distinct by done.
    rewrite bool_decide_eq_false_2; [done|].
    rewrite distinct_elem. tauto.
  - intros n. unfold assembly.references. simpl.
    rewrite references_of_consumers. unfold assembly.consumers.
    by rewrite distinct_remove_dups.
  - intros n Hn. rewrite Initializer_accept by done. simpl.
    rewrite app_nil_r.
    assert (Hin : n ∈ assembly.distinct ∅ reached).
    { apply distinct_elem. split; [done|apply not_elem_of_empty]. }
    rewrite reverse_Permutation. by apply once_in_NoDup.
Qed.

(** The diamond, reached along both branches: one symbol for the node that
    fans out, referenced twice. *)
Lemma link_deduplicates_witness :
  exists t, assembly.link sample.diamond [0; 1; 3; 0; 2; 3] = Ok t
    /\ length (assembly.symbols t) = 4
    /\ assembly.symbols_of t 0 = 1
    /\ assembly.references t 0 = 2.
Proof.
  destruct (link_deduplicates sample.diamond [0; 1; 3; 0; 2; 3])
    as (t & Ht & Hs & _ & Hr & _).
  - intros n Hn.
    repeat (apply elem_of_cons in Hn as [->|Hn]; [reflexivity|]).
    by apply elem_of_nil in Hn.
  - exists t. split; [done|]. split.
    + vm_compute in Ht. injection Ht as <-. reflexivity.
    + split; [apply Hs; by left|]. rewrite Hr. reflexivity.
Defined.

(* ===================================================================== *)
(** * Part III: further properties of the code                            *)
(* ===================================================================== *)

(** ** Tables: declaration, equality and hashing *)

Lemma Table_new_plain m q ns (h : frame.heap) :
  frame.Table_new [] m q ns h
  = (Ok (S (length h)),
     h ++ [frame.Schema m q ns; frame.Table (length h)]).
Proof.
  unfold frame.Table_new, frame.bind, frame.alloc. simpl.
  rewrite length_app, <- app_assoc. simpl. f_equal. f_equal. lia.
Qed.

(** X1: a schema declared a second time, with the same module and
    qualified name and whatever fields, gives a second table that is
    another object than the first, equal to it and of the same hash. *)
Theorem redeclared_table_is_equal (str_hash : string -> Z) (h : frame.heap)
    (m q : string) (ns1 ns2 : list (string * frame.etlField)) :
  let first := frame.Table_new [] m q ns1 h in
  let second := frame.Table_new [] m q ns2 (snd first) in
  exists t1 t2,
    fst first = Ok t1 /\ fst second = Ok t2 /\ t1 ≠ t2
    /\ h !! t1 = None /\ snd first !! t2 = None
    /\ frame.Table_eq str_hash (snd second) t1 t2 = Some true
    /\ frame.hash str_hash (snd second) t1
       = frame.hash str_hash (snd second) t2.
Proof.
  intros first second. unfold second, first.
  rewrite Table_new_plain. cbn [fst snd].
  rewrite Table_new_plain. cbn [fst snd].
  exists (S (length h)), (S (length (h ++ [frame.Schema m q ns1;
                                         frame.Table (length h)]))).
  rewrite !length_app. simpl.
  assert (L1 : forall (l : frame.heap) k j,
               j = length h + k -> (h ++ l) !! j = l !! k).
  { intros l k j ->. rewrite lookup_app_r by lia. f_equal. lia. }
  split; [done|]. split; [done|]. split; [lia|].
  split; [apply lookup_ge_None_2; lia|].
  split; [apply lookup_ge_None_2; rewrite length_app; simpl; lia|].
  rewrite <- app_assoc. simpl.
  assert (Ht1 : (h ++ [frame.Schema m q ns1; frame.Table (length h);
                       frame.Schema m q ns2; frame.Table (length h + 2)])
                !! S (length h) = Some (frame.Table (length h))).
  { rewrite (L1 _ 1) by lia. done. }
  assert (Hs1 : (h ++ [frame.Schema m q ns1; frame.Table (length h);
                       frame.Schema m q ns2; frame.Table (length h + 2)])
                !! length h = Some (frame.Schema m q ns1)).
  { rewrite lookup_app_r by lia. by rewrite Nat.sub_diag. }
  assert (Ht2 : (h ++ [frame.Schema m q ns1; frame.Table (length h);
                       frame.Schema m q ns2; frame.Table (length h + 2)])
                !! S (length h + 2) = Some (frame.Table (length h + 2))).
  { rewrite (L1 _ 3) by lia. done. }
  assert (Hs2 : (h ++ [frame.Schema m q ns1; frame.Table (length h);
                       frame.Schema m q ns2; frame.Table (length h + 2)])
                !! (length h + 2) = Some (frame.Schema m q ns2)).
  { rewrite (L1 _ 2) by lia. done. }
  destruct (slot_hash_lookup str_hash _ _ _ m q ns1 Ht1 Hs1) as [E1 E1'].
  destruct (slot_hash_lookup str_hash _ _ _ m q ns2 Ht2 Hs2) as [E2 E2'].
  split.
  - unfold frame.Table_eq. rewrite Ht1, Ht2.
    destruct (length h =? length h + 2); [done|].
    unfold frame.Schema_eq. rewrite E1', E2'. by rewrite Z.eqb_refl.
  - by rewrite E1, E2.
Qed.

(** X2: two tables are equal exactly when their schemas hash alike; so
    equal tables have equal hashes, as a dictionary key asks. *)
Theorem Table_eq_is_hash_eq (str_hash : string -> Z) (h : frame.heap)
    (t1 t2 s1 s2 : frame.ref) (m1 q1 m2 q2 : string)
    (f1 f2 : list (string * frame.etlField)) :
  h !! t1 = Some (frame.Table s1) ->
  h !! t2 = Some (frame.Table s2) ->
  h !! s1 = Some (frame.Schema m1 q1 f1) ->
  h !! s2 = Some (frame.Schema m2 q2 f2) ->
  exists b, frame.Table_eq str_hash h t1 t2 = Some b
    /\ (b = true <-> frame.hash str_hash h t1 = frame.hash str_hash h t2)
    /\ frame.Table_eq str_hash h t2 t1 = Some b
    /\ frame.Table_eq str_hash h t1 t1 = Some true.
Proof.
  intros Ht1 Ht2 Hs1 Hs2.
  destruct (slot_hash_lookup str_hash h t1 s1 m1 q1 f1 Ht1 Hs1) as [E1 E1'].
  destruct (slot_hash_lookup str_hash h t2 s2 m2 q2 f2 Ht2 Hs2) as [E2 E2'].
  unfold frame.Table_eq. rewrite Ht1, Ht2, E1, E2, Nat.eqb_refl.
  destruct (s1 =? s2) eqn:Es.
  - apply Nat.eqb_eq in Es as ->. rewrite Nat.eqb_refl.
    rewrite Hs1 in Hs2. injection Hs2 as -> -> ->.
    exists true. done.
  - rewrite Nat.eqb_sym, Es. unfold frame.Schema_eq.
    rewrite E1', E2', Z.eqb_sym.
    eexists. split; [done|]. split; [|done].
    rewrite Z.eqb_eq. split; [by intros ->|by intros [= ->]].
Qed.

Lemma Table_eq_is_hash_eq_witness :
  exists b, frame.Table_eq (fun s => Z.of_nat (String.length s))
              sample.twice_declared 1 3 = Some b
    /\ (b = true
        <-> frame.hash (fun s => Z.of_nat (String.length s))
              sample.twice_declared 1
            = frame.hash (fun s => Z.of_nat (String.length s))
                sample.twice_declared 3)
    /\ frame.Table_eq (fun s => Z.of_nat (String.length s))
         sample.twice_declared 3 1 = Some b
    /\ frame.Table_eq (fun s => Z.of_nat (String.length s))
         sample.twice_declared 1 1 = Some true.
Proof.
  apply (Table_eq_is_hash_eq _ sample.twice_declared 1 3 0 2
           "edu" "Student" "edu" "Student"
           [("score"%string, {| frame.field_name := None;
                                frame.field_kind := frame.Integer |})] []);
    reflexivity.
Defined.

(** X3: the hash of a schema mixes the module and the qualified name by
    exclusive or, so two tables whose schemas have them swapped are equal,
    and so are any two tables whose schemas are each named as their
    module. *)
Theorem swapped_names_collide (str_hash : string -> Z) (h : frame.heap)
    (t1 t2 s1 s2 : frame.ref) (m q m' : string)
    (f1 f2 : list (string * frame.etlField)) :
  h !! t1 = Some (frame.Table s1) ->
  h !! t2 = Some (frame.Table s2) ->
  h !! s1 = Some (frame.Schema m q f1) ->
  (h !! s2 = Some (frame.Schema q m f2)
   \/ (m = q /\ h !! s2 = Some (frame.Schema m' m' f2))) ->
  frame.Table_eq str_hash h t1 t2 = Some true
  /\ frame.hash str_hash h t1 = frame.hash str_hash h t2.
Proof.
  intros Ht1 Ht2 Hs1 Hs2.
  destruct (slot_hash_lookup str_hash h t1 s1 m q f1 Ht1 Hs1) as [E1 E1'].
  assert (exists m2 q2, h !! s2 = Some (frame.Schema m2 q2 f2)
            /\ frame.Schema_hash str_hash m2 q2
               = frame.Schema_hash str_hash m q) as (m2 & q2 & Hs2' & Hh).
  { destruct Hs2 as [Hs2|[-> Hs2]].
    - exists q, m. split; [done|]. unfold frame.Schema_hash.
      by rewrite Z.lxor_comm.
    - exists m', m'. split; [done|]. unfold frame.Schema_hash.
      by rewrite !Z.lxor_nilpotent. }
  destruct (slot_hash_lookup str_hash h t2 s2 m2 q2 f2 Ht2 Hs2') as [E2 E2'].
  split.
  - unfold frame.Table_eq. rewrite Ht1, Ht2.
    destruct (s1 =? s2); [done|].
    unfold frame.Schema_eq. rewrite E1', E2', Hh. by rewrite Z.eqb_refl.
  - by rewrite E1, E2, Hh.
Qed.

Lemma swapped_names_collide_witness :
  let h := [frame.Schema "school" "edu" []; frame.Table 0;
            frame.Schema "edu" "school" []; frame.Table 2] in
  frame.Table_eq (fun s => Z.of_nat (String.length s)) h 1 3 = Some true
  /\ frame.hash (fun s => Z.of_nat (String.length s)) h 1
     = frame.hash (fun s => Z.of_nat (String.length s)) h 3.
Proof.
  intros h.
  apply (swapped_names_collide _ h 1 3 0 2 "school" "edu" "" [] []);
    try reflexivity.
  left. reflexivity.
Defined.

(** ** Runs of combinator calls *)

(** X4: however many combinators are invoked, on whatever receivers and
    whether they raise or return, the store only grows: every object that
    was there is unchanged, and a table shows the schema and fields it
    showed. *)
Theorem invoke_all_preserves
    (derived : frame.heap -> frame.ref -> frame.Column -> bool)
    (calls : list (frame.ref * frame.combinator)) (h : frame.heap) :
  (exists new, frame.invoke_all derived calls h = h ++ new)
  /\ (forall x o, h !! x = Some o ->
        frame.invoke_all derived calls h !! x = Some o)
  /\ (forall t s m q fs,
        h !! t = Some (frame.Table s) ->
        h !! s = Some (frame.Schema m q fs) ->
        frame.observe (frame.invoke_all derived calls h) t
        = frame.observe h t).
Proof.
  assert (Hgrow : exists new, frame.invoke_all derived calls h = h ++ new).
  { revert h. induction calls as [|[self c] rest IH]; intros h; simpl.
    - exists []. by rewrite app_nil_r.
    - destruct (invoke_extends derived self c h) as (new & -> & _).
      destruct (IH (h ++ new)) as (new' & ->).
      exists (new ++ new'). by rewrite app_assoc. }
  destruct Hgrow as (new & Hnew).
  assert (Hkeep : forall x o, h !! x = Some o ->
                    frame.invoke_all derived calls h !! x = Some o).
  { intros x o Hx. rewrite Hnew. by apply lookup_app_l_Some. }
  split; [eauto|]. split; [done|].
  intros t s m q fs Ht Hs.
  unfold frame.observe, frame.Table_getattr, frame.Table_schema.
  rewrite (Hkeep _ _ Ht), Ht, (Hkeep _ _ Hs), Hs. reflexivity.
Qed.

(** ** The slicer: widths, partition, edges *)

(** X5: a slicer actor made for F features and L labels takes a batch
    of exactly F + max(L, 1) columns: any other width fails the assertion
    before the slicer is called, also for an empty label list, which
    asks for one column more than the features. *)
Theorem slicer_width {A C : Type}
    (slicer : list A -> extract.selection -> result (extract.sliced A))
    (features labels : list C) (columns : list A) :
  let actor := extract.Actor_init slicer features labels in
  let width := length features + Nat.max (length labels) 1 in
  (length columns ≠ width ->
   extract.Actor_apply actor columns = Raise AssertionError)
  /\ (length columns = width ->
      extract.Actor_apply actor columns
      = match slicer columns (extract._features actor) with
        | Ok f =>
            match slicer columns (extract._label_sel actor) with
            | Ok l => Ok (f, l)
            | Raise e => Raise e
            end
        | Raise e => Raise e
        end)
  /\ (labels = [] ->
      extract._label_sel actor = extract.Index (length features)).
Proof.
  intros actor width.
  assert (Hstop : match extract._label_sel actor with
                  | extract.Slice _ stop => stop
                  | extract.Index i => i + 1
                  end = width).
  { unfold actor, width, extract.Actor_init. simpl.
    destruct (1 <? length labels) eqn:E; simpl.
    - apply Nat.ltb_lt in E. lia.
    - apply Nat.ltb_ge in E. lia. }
  split; [|split].
  - intros Hne. unfold extract.Actor_apply. rewrite Hstop.
    apply Nat.eqb_neq in Hne. by rewrite Hne.
  - intros He. unfold extract.Actor_apply. rewrite Hstop.
    apply Nat.eqb_eq in He. by rewrite He.
  - by intros ->.
Qed.

(** X6: with the plain positional slicer made for the schema of the
    features followed by the labels, the actor cuts a batch of F+L columns
    (L >= 1) in two without losing, repeating or reordering a column: the
    first F columns, and the L others, as a run when L > 1 and as the one
    column when L = 1. *)
Theorem positional_slicer_partitions {A C : Type} (fs ls : list C)
    (columns : list A) :
  length columns = length fs + length ls ->
  1 <= length ls ->
  exists f l,
    extract.Actor_apply
      (extract.Actor_init (extract.Slicer_call (fs ++ ls)) fs ls) columns
    = Ok (extract.Columns f, l)
    /\ length f = length fs
    /\ match l with
       | extract.Columns l' => 1 < length ls /\ columns = f ++ l'
       | extract.Column c => length ls = 1 /\ columns = f ++ [c]
       end.
Proof.
  intros Hlen HL.
  destruct (positional_slicer_split fs ls columns Hlen) as (Hf & Hl & H1).
  unfold extract.Actor_apply, extract.Actor_init.
  cbn [extract._slicer extract._features extract._label_sel].
  destruct (1 <? length ls) eqn:E.
  - apply Nat.ltb_lt in E.
    rewrite Hlen, Nat.eqb_refl. cbn [negb]. rewrite Hf, Hl.
    eexists _, _. split; [done|]. split.
    + rewrite length_take. lia.
    + split; [done|]. by rewrite take_drop.
  - apply Nat.ltb_ge in E. assert (Hone : length ls = 1) by lia.
    destruct (H1 Hone) as (c & Hc & Hd).
    replace (length fs + 1) with (length columns) by lia.
    rewrite Nat.eqb_refl. cbn [negb]. rewrite Hf, Hc.
    eexists _, _. split; [done|]. split.
    + rewrite length_take. lia.
    + split; [done|]. by rewrite <- Hd, take_drop.
Qed.

Lemma positional_slicer_partitions_witness :
  exists f l,
    extract.Actor_apply
      (extract.Actor_init (extract.Slicer_call ([0; 1] ++ [2; 3]))
         [0; 1] [2; 3]) ["a"; "b"; "c"; "d"]%string
    = Ok (extract.Columns f, l)
    /\ length f = 2
    /\ match l with
       | extract.Columns l' =>
           1 < 2 /\ ["a"; "b"; "c"; "d"]%string = f ++ l'
       | extract.Column c =>
           2 = 1 /\ ["a"; "b"; "c"; "d"]%string = f ++ [c]
       end.
Proof.
  apply (positional_slicer_partitions [0; 1] [2; 3]
           ["a"; "b"; "c"; "d"]%string); simpl; lia.
Defined.

(** X7: the positional slicer never fails on a slice, whatever the
    bounds: it returns the columns the batch has in that range, none when
    the range is empty or past the end. On an index it raises [IndexError]
    exactly when the schema or the batch has no column there. *)
Theorem Slicer_call_edges {A C : Type} (schema : list C) (source : list A) :
  (forall start stop,
     exists l, extract.Slicer_call schema source (extract.Slice start stop)
               = Ok (extract.Columns l)
       /\ length l = Nat.min (stop - default 0 start)
                       (length source - default 0 start)
       /\ forall k, k < length l -> l !! k = source !! (default 0 start + k))
  /\ (forall i,
        (i < length schema /\ i < length source ->
         exists a, source !! i = Some a
           /\ extract.Slicer_call schema source (extract.Index i)
              = Ok (extract.Column a))
        /\ (~ (i < length schema /\ i < length source) ->
            extract.Slicer_call schema source (extract.Index i)
            = Raise IndexError)).
Proof.
  unfold extract.Slicer_call, extract.getitem. split.
  - intros start stop. simpl. eexists. split; [done|]. split.
    + rewrite length_take, length_drop. done.
    + intros k Hk. rewrite length_take in Hk.
      rewrite lookup_take_lt by lia. by rewrite lookup_drop.
  - intros i. split.
    + intros [Hs Hc].
      destruct (lookup_lt_is_Some_2 schema i Hs) as [c ->].
      destruct (lookup_lt_is_Some_2 source i Hc) as [a Ha].
      exists a. by rewrite Ha.
    + intros Hn. destruct (schema !! i) as [c|] eqn:Es; [|done].
      destruct (source !! i) as [a|] eqn:Ea; [|done].
      exfalso. apply Hn. split; eapply lookup_lt_Some; eauto.
Qed.

(** ** Reading a statement *)

Section ReaderActor.
Context {Query Element Expression Columnar : Type}.
Variable where_ : Query -> Expression -> Query.
Variable ge lt : Element -> Native -> Expression.
Variable reader : Query -> result Columnar.

(** X8: a reader actor whose statement was prepared without bounds reads
    the base query as it is, whether or not the source has an ordinal
    column; one prepared with a truthy bound for a source without ordinal
    raises [Unexpected] whatever the reader would do. *)
Theorem reader_of_prepared (query : Query) (ordinal : option Element)
    (lower upper : Native) :
  extract.Reader_Actor_apply where_ ge lt reader
    (extract.prepare query ordinal NNone NNone) = reader query
  /\ (truthy lower || truthy upper = true ->
      extract.Reader_Actor_apply where_ ge lt reader
        (extract.prepare query None lower upper) = Raise Unexpected)
  /\ (truthy lower = true -> truthy upper = true ->
      forall o,
        extract.Reader_Actor_apply where_ ge lt reader
          (extract.prepare query (Some o) lower upper)
        = reader (where_ (where_ query (ge o lower)) (lt o upper))).
Proof.
  unfold extract.Reader_Actor_apply, extract.Statement_call,
    extract.prepare, extract.Prepared_call. simpl.
  split; [by destruct ordinal|]. split.
  - by intros ->.
  - by intros -> -> o.
Qed.
End ReaderActor.

Lemma reader_of_prepared_witness :
  extract.Reader_Actor_apply sample.where_ sample.ge sample.lt
    (fun q => Ok (length q))
    (extract.prepare [] (Some "day"%string) (NInt 3) (NInt 9))
  = Ok 2.
Proof.
  destruct (reader_of_prepared sample.where_ sample.ge sample.lt
              (fun q => Ok (length q)) [] (Some "day"%string)
              (NInt 3) (NInt 9)) as (_ & _ & H).
  rewrite H; reflexivity.
Defined.

(** ** Composing source operators *)

Lemma compose_at_origin (self : extract.Operator) (g : flow.Graph) :
  flow.wf g ->
  exists seg g' new,
    extract.compose self flow.Origin g = Ok (seg, g')
    /\ flow.nodes g' = flow.nodes g ++ new
    /\ (forall p q, flow.subs g !! p = Some q -> flow.subs g' !! p = Some q)
    /\ (forall p q, flow.subs g' !! p = Some q ->
          flow.subs g !! p = Some q
          \/ (length (flow.nodes g) <= p.1 < length (flow.nodes g')
              /\ length (flow.nodes g) <= q.1 < length (flow.nodes g')))
    /\ (forall n, n ∈ flow.Segment_nodes seg ->
          length (flow.nodes g) <= n < length (flow.nodes g')).
Proof.
  intros Hwf. unfold extract.compose. simpl.
  unfold flow.bind, flow.new_node, flow.ret. simpl.
  destruct (extract._label self) as [label|]; simpl.
  - rewrite !length_app. simpl.
    rewrite subscribe_fresh; simpl.
    2:{ apply wf_unsubscribed; [done|lia]. }
    rewrite subscribe_fresh; simpl.
    2:{ rewrite lookup_insert_ne by (intros [=]; lia).
        apply wf_unsubscribed; [done|lia]. }
    rewrite subscribe_fresh; simpl.
    2:{ rewrite !lookup_insert_ne by (intros [=]; lia).
        apply wf_unsubscribed; [done|lia]. }
    rewrite <- !app_assoc. simpl.
    eexists _, _, _. split; [done|]. simpl. split; [done|].
    rewrite !length_app. simpl. split; [|split].
    + intros p q Hp. pose proof (Hwf p q Hp) as Hlt.
      rewrite !lookup_insert_ne; [done|..]; intros <-; simpl in Hlt; lia.
    + intros p q Hp.
      apply lookup_insert_Some in Hp as [[<- <-]|[_ Hp]]; [right; simpl; lia|].
      apply lookup_insert_Some in Hp as [[<- <-]|[_ Hp]]; [right; simpl; lia|].
      apply lookup_insert_Some in Hp as [[<- <-]|[_ Hp]]; [right; simpl; lia|].
      by left.
    + intros n Hn. unfold flow.Segment_nodes, flow.Path_new, flow.extend in Hn.
      simpl in Hn.
      repeat (apply elem_of_cons in Hn as [->|Hn]; [lia|]).
      by apply elem_of_nil in Hn.
  - rewrite <- app_assoc. simpl.
    eexists _, _, _. split; [done|]. simpl. split; [done|].
    rewrite !length_app. simpl. split; [done|]. split; [by left|].
    intros n Hn. unfold flow.Segment_nodes, flow.Path_new in Hn. simpl in Hn.
    repeat (apply elem_of_cons in Hn as [->|Hn]; [lia|]).
    by apply elem_of_nil in Hn.
Qed.

(** X9: composing a source operator onto the origin keeps the graph
    well formed and leaves what was built before as it was: the nodes that
    were there keep their place and content, every subscription that was
    there stays, and the new subscriptions join new nodes only. *)
Theorem compose_preserves_graph (self : extract.Operator) (g : flow.Graph) :
  flow.wf g ->
  exists seg g',
    extract.compose self flow.Origin g = Ok (seg, g')
    /\ flow.wf g'
    /\ (forall n a, flow.nodes g !! n = Some a ->
          flow.nodes g' !! n = Some a)
    /\ (forall p q, flow.subs g !! p = Some q -> flow.subs g' !! p = Some q)
    /\ (forall p q, flow.subs g' !! p = Some q ->
          flow.subs g !! p = None ->
          length (flow.nodes g) <= p.1 /\ length (flow.nodes g) <= q.1).
Proof.
  intros Hwf.
  destruct (compose_at_origin self g Hwf)
    as (seg & g' & new & Hc & Hn & Hold & Hnew & _).
  exists seg, g'. split; [done|]. split; [|split; [|split; [done|]]].
  - intros p q Hp. destruct (Hnew p q Hp) as [Ho|[Hlt _]]; [|lia].
    apply Hwf in Ho. rewrite Hn, length_app. lia.
  - intros n a Ha. rewrite Hn. by apply lookup_app_l_Some.
  - intros p q Hp Hnone. destruct (Hnew p q Hp) as [Ho|[H1 H2]]; [|lia].
    congruence.
Qed.

Lemma compose_preserves_graph_witness :
  exists seg g',
    extract.compose
      (extract.Operator_init {| flow.actor := "reader"; flow.params := [] |}
         None (Some {| flow.actor := "slicer"; flow.params := [] |}))
      flow.Origin flow.empty = Ok (seg, g')
    /\ flow.wf g'.
Proof.
  destruct (compose_preserves_graph
              (extract.Operator_init
                 {| flow.actor := "reader"; flow.params := [] |}
                 None (Some {| flow.actor := "slicer"; flow.params := [] |}))
              flow.empty) as (seg & g' & Hc & Hwf & _).
  - intros p q H. unfold flow.empty in H. simpl in H.
    by rewrite lookup_empty in H.
  - eauto.
Defined.

(** X10: a source operator can be composed again, and another after it:
    the second composition succeeds on the graph the first left, and the
    two segments have no node in common. *)
Theorem composed_twice_share_nothing (first second : extract.Operator)
    (g : flow.Graph) :
  flow.wf g ->
  exists s1 g1 s2 g2,
    extract.compose first flow.Origin g = Ok (s1, g1)
    /\ extract.compose second flow.Origin g1 = Ok (s2, g2)
    /\ (forall n, n ∈ flow.Segment_nodes s1 -> n ∉ flow.Segment_nodes s2)
    /\ (forall n, n ∈ flow.Segment_nodes s1 ->
          flow.nodes g2 !! n = flow.nodes g1 !! n).
Proof.
  intros Hwf.
  destruct (compose_at_origin first g Hwf)
    as (s1 & g1 & new1 & Hc1 & Hn1 & Hold1 & Hnew1 & Hs1).
  assert (Hwf1 : flow.wf g1).
  { intros p q Hp. destruct (Hnew1 p q Hp) as [Ho|[Hlt _]]; [|lia].
    apply Hwf in Ho. rewrite Hn1, length_app. lia. }
  destruct (compose_at_origin second g1 Hwf1)
    as (s2 & g2 & new2 & Hc2 & Hn2 & Hold2 & Hnew2 & Hs2).
  exists s1, g1, s2, g2. split; [done|]. split; [done|]. split.
  - intros n H1 H2. apply Hs1 in H1. apply Hs2 in H2. lia.
  - intros n H1. apply Hs1 in H1. rewrite Hn2.
    rewrite lookup_app_l by lia. done.
Qed.

Lemma composed_twice_share_nothing_witness :
  let op := extract.Operator_init
              {| flow.actor := "reader"; flow.params := [] |} None None in
  exists s1 g1 s2 g2,
    extract.compose op flow.Origin flow.empty = Ok (s1, g1)
    /\ extract.compose op flow.Origin g1 = Ok (s2, g2)
    /\ (forall n, n ∈ flow.Segment_nodes s1 -> n ∉ flow.Segment_nodes s2)
    /\ (forall n, n ∈ flow.Segment_nodes s1 ->
          flow.nodes g2 !! n = flow.nodes g1 !! n).
Proof.
  intros op. apply (composed_twice_share_nothing op op flow.empty).
  intros p q H. unfold flow.empty in H. simpl in H.
  by rewrite lookup_empty in H.
Defined.

(** ** Class wrapping: errors, defaults, attribute resolution *)

Lemma all_str_iff (mapping : gmap string wrapped.mvalue) :
  forallb wrapped.is_str (map_to_list mapping).*2 = true
  <-> forall k, mapping !! k ≠ Some wrapped.MOther.
Proof.
  rewrite <- Is_true_true, forallb_True, Forall_forall. split.
  - intros H k Hk.
    assert (Hin : wrapped.MOther ∈ (map_to_list mapping).*2).
    { apply list_elem_of_fmap. exists (k, wrapped.MOther).
      split; [done|]. by apply elem_of_map_to_list. }
    apply H in Hin. done.
  - intros H v Hv. apply list_elem_of_fmap in Hv as ([k v'] & -> & Hin).
    apply elem_of_map_to_list in Hin. simpl.
    destruct v'; [done|]. by apply H in Hin.
Qed.

Lemma some_not_str (mapping : gmap string wrapped.mvalue) :
  forallb wrapped.is_str (map_to_list mapping).*2 = false ->
  exists k, mapping !! k = Some wrapped.MOther.
Proof.
  intros E.
  assert (H : exists k, (k, wrapped.MOther) ∈ map_to_list mapping).
  { induction (map_to_list mapping) as [|[k v] l IH]; [done|].
    simpl in E. destruct v; simpl in E.
    - destruct (IH E) as [k' Hk']. exists k'. by right.
    - exists k. by left. }
  destruct H as [k Hk]. exists k. by apply elem_of_map_to_list.
Qed.

(** X11: the class decorator raises [ValueError] exactly when a value of
    the mapping is not a string or the decorated object is truthy and not
    a class; the mapping is looked at first. An actor class comes back as
    it is, with no method looked for; for a falsy first argument, [None]
    or not, nothing is looked at and the decorator comes back, holding the
    mapping with its defaults. *)
Theorem Class_actor_ValueError (cls : wrapped.decoratee)
    (mapping : gmap string wrapped.mvalue) :
  (wrapped.Class_actor cls mapping = Raise ValueError
   <-> (exists k, mapping !! k = Some wrapped.MOther)
       \/ cls = wrapped.NotAClass)
  /\ ((forall k, mapping !! k ≠ Some wrapped.MOther) ->
      (forall attrs,
         wrapped.Class_actor (wrapped.AClass true attrs) mapping
         = Ok (wrapped.Untouched (wrapped.AClass true attrs)))
      /\ wrapped.Class_actor wrapped.Falsy mapping
         = Ok (wrapped.Decorator (wrapped.setdefaults mapping))).
Proof.
  unfold wrapped.Class_actor. split.
  - destruct (forallb wrapped.is_str (map_to_list mapping).*2) eqn:E;
      cbn [negb].
    + pose proof (proj1 (all_str_iff mapping) E) as Hs. split.
      * destruct cls as [[] attrs| |]; [done| |by right|done].
        by destruct (forallb (wrapped.callable attrs)
                       (wrapped.targets (wrapped.setdefaults mapping))).
      * intros [[k Hk]| ->]; [by apply Hs in Hk|done].
    + split; [|done]. intros _. left. by apply some_not_str.
  - intros Hs. by rewrite (proj2 (all_str_iff mapping) Hs).
Qed.

(** X12: filling in the defaults keeps every entry the mapping had, maps
    each of apply, train, get_params and set_params that was not mapped to
    itself, adds no other name, and changes nothing when done again. *)
Theorem setdefaults_fills_in (mapping : gmap string wrapped.mvalue) :
  let full := wrapped.setdefaults mapping in
  (forall k v, mapping !! k = Some v -> full !! k = Some v)
  /\ (forall n, n ∈ wrapped.methods -> mapping !! n = None ->
        full !! n = Some (wrapped.MStr n))
  /\ (forall k, k ∉ wrapped.methods -> full !! k = mapping !! k)
  /\ dom full = dom mapping ∪ list_to_set wrapped.methods
  /\ wrapped.setdefaults full = full.
Proof.
  intros full.
  assert (Hl : forall k, full !! k
                 = match mapping !! k with
                   | Some v => Some v
                   | None => if bool_decide (k ∈ wrapped.methods)
                             then Some (wrapped.MStr k) else None
                   end) by (intros k; apply setdefaults_lookup).
  split; [|split; [|split; [|split]]].
  - intros k v Hk. by rewrite Hl, Hk.
  - intros n Hn Hm. by rewrite Hl, Hm, bool_decide_eq_true_2.
  - intros k Hk. rewrite Hl. destruct (mapping !! k); [done|].
    by rewrite bool_decide_eq_false_2.
  - apply set_eq. intros k.
    rewrite elem_of_union, !elem_of_dom, elem_of_list_to_set, Hl.
    destruct (mapping !! k) eqn:E.
    + split; [intros _; left|]; eauto.
    + case_bool_decide as Hk.
      * split; [by right|eauto].
      * split; [by intros [? ?]|]. intros [[? ?]|?]; done.
  - apply map_eq. intros k. rewrite setdefaults_lookup. fold full.
    rewrite Hl. destruct (mapping !! k); [done|].
    by case_bool_decide.
Qed.

(** X13: on a wrapper that the decorator returned, for an object with the
    attributes of the class, apply, get_params and set_params each resolve
    to a callable of the wrapped object, under the mapped name; train
    resolves exactly when the wrapper reports is_stateful() = True and is
    an [AttributeError] otherwise; a name that starts with an underscore
    is never looked up on the wrapped object. *)
Theorem decorated_resolves (attrs : gmap string wrapped.member)
    (mapping : gmap string wrapped.mvalue) (w : wrapped.Class) :
  wrapped.Class_actor (wrapped.AClass false attrs) mapping
  = Ok (wrapped.Wrapped w) ->
  (forall n, n ∈ ["apply"; "get_params"; "set_params"]%string ->
     exists t, wrapped.c_params w !! n = Some (wrapped.MStr t)
       /\ wrapped.getattribute w n
          = Ok (wrapped.Delegated t wrapped.Method))
  /\ (exists t, wrapped.c_params w !! "train"%string = Some (wrapped.MStr t)
        /\ wrapped.getattribute w "train"
           = match attrs !! t with
             | Some found => Ok (wrapped.Delegated t found)
             | None => Raise AttributeError
             end
        /\ wrapped.is_stateful w = Ok (bool_decide (is_Some (attrs !! t))))
  /\ (forall item, String.prefix "_" item = true ->
        wrapped.getattribute w item = Ok (wrapped.Own item)).
Proof.
  unfold wrapped.Class_actor.
  destruct (forallb wrapped.is_str (map_to_list mapping).*2) eqn:Hstr;
    [|done]. cbn [negb].
  destruct (forallb (wrapped.callable attrs)
              (wrapped.targets (wrapped.setdefaults mapping))) eqn:Hc;
    [|done].
  intros [= <-].
  pose proof (proj1 (targets_callable attrs _) Hc) as Hcall.
  pose proof (proj1 (all_str_iff mapping) Hstr) as Hs.
  assert (Hm : forall n, n ∈ wrapped.methods ->
                 exists t, wrapped.setdefaults mapping !! n
                           = Some (wrapped.MStr t)).
  { intros n Hn. rewrite setdefaults_lookup.
    destruct (mapping !! n) as [[t|]|] eqn:E; [eauto|by apply Hs in E|].
    rewrite bool_decide_eq_true_2 by done. eauto. }
  split; [|split].
  - intros n Hn.
    assert (Hne : n ≠ "train"%string).
    { intros ->. repeat (apply elem_of_cons in Hn as [Hn|Hn]; [done|]).
      by apply elem_of_nil in Hn. }
    assert (Hp : String.prefix "_" n = false).
    { repeat (apply elem_of_cons in Hn as [->|Hn]; [done|]).
      by apply elem_of_nil in Hn. }
    destruct (Hm n) as [t Ht].
    { unfold wrapped.methods.
      repeat (apply elem_of_cons in Hn as [->|Hn]; [set_solver|]).
      by apply elem_of_nil in Hn. }
    exists t. split; [done|].
    pose proof (Hcall n _ Hne Ht) as Hcb. simpl in Hcb.
    unfold wrapped.getattribute. simpl. rewrite Hp, Ht. simpl.
    destruct (attrs !! t) as [[]|]; done.
  - destruct (Hm "train"%string) as [t Ht];
      [unfold wrapped.methods; set_solver|].
    exists t. split; [done|]. split.
    + unfold wrapped.getattribute. simpl. rewrite Ht. simpl. done.
    + unfold wrapped.is_stateful. simpl. by rewrite Ht.
  - intros item Hp. unfold wrapped.getattribute. by rewrite Hp.
Qed.

Lemma decorated_resolves_witness :
  wrapped.getattribute
    {| wrapped.c_actor := sample.splitter;
       wrapped.c_params := wrapped.setdefaults ∅ |} "apply"
  = Ok (wrapped.Delegated "apply" wrapped.Method).
Proof.
  destruct (decorated_resolves sample.splitter ∅
              {| wrapped.c_actor := sample.splitter;
                 wrapped.c_params := wrapped.setdefaults ∅ |})
    as (H & _ & _).
  - vm_compute. reflexivity.
  - destruct (H "apply"%string) as (t & Ht & Hg); [by left|].
    vm_compute in Ht. injection Ht as <-. exact Hg.
Defined.

(** ** Function actors: parameters and calls *)

Section FunctionActorParams.
Context {V : Type}.
Implicit Types (self : @wrapped.FunctionActor V).

(** X14: giving an actor the parameters it reports changes nothing; a
    function, a non-empty sequence and a non-empty dictionary given to
    set_params are what get_params reports then; and set_params can empty
    neither the arguments nor the keywords: [None], an empty sequence and
    an empty dictionary all leave what was there. *)
Theorem set_params_get_params self (f : wrapped.Callable) (a : V)
    (args : list V) (kwargs : gmap string V) :
  wrapped.set_params self
    (Some (wrapped.p_function (wrapped.get_params self)))
    (Some (wrapped.p_args (wrapped.get_params self)))
    (Some (wrapped.p_kwargs (wrapped.get_params self))) = self
  /\ (dom kwargs ≠ ∅ ->
      wrapped.get_params
        (wrapped.set_params self (Some f) (Some (a :: args)) (Some kwargs))
      = {| wrapped.p_function := f; wrapped.p_args := a :: args;
           wrapped.p_kwargs := kwargs |})
  /\ wrapped.set_params self None (Some []) (Some ∅) = self
  /\ wrapped.set_params self None None None = self.
Proof.
  destruct self as [f0 args0 kwargs0].
  unfold wrapped.set_params, wrapped.get_params. simpl.
  split; [|split; [|split]].
  - f_equal; first [by destruct args0 | by case_bool_decide].
  - intros Hk. by rewrite bool_decide_eq_false_2.
  - first [done | f_equal; rewrite bool_decide_eq_true_2; [done|set_solver]].
  - done.
Qed.

(** X15: an actor made of a function with no extra argument passes the
    validation whatever the signature of the function is. *)
Theorem no_argument_always_binds (function : wrapped.Callable) :
  wrapped.Actor_init function [] (∅ : gmap string V)
  = Ok {| wrapped._function := function; wrapped._args := [];
          wrapped._kwargs := ∅ |}.
Proof.
  assert (Hk : forall ps b, wrapped.bind_keywords ps (∅ : gmap string V) b
                            = Ok tt).
  { induction ps as [|p ps IH]; intros b; simpl.
    - rewrite bool_decide_eq_true_2; [done|]. set_solver.
    - rewrite lookup_empty. destruct (wrapped.pkind p); apply IH. }
  assert (Hp : forall ps, exists r,
                 wrapped.bind_positional ps [] (∅ : gmap string V) = Ok r).
  { intros [|p ps]; simpl; [eauto|].
    rewrite lookup_empty.
    rewrite (bool_decide_eq_false_2 (is_Some None))
      by (intros [? ?]; done).
    destruct (wrapped.pkind p); eauto. }
  unfold wrapped.Actor_init, wrapped.bind_partial.
  destruct (Hp (drop 1 (wrapped.signature function))) as [r ->].
  by rewrite Hk.
Qed.

(** X16: when the first parameter of the function is positional and is not
    among the keywords, the binding that validates the arguments of an
    actor is the binding of the call that apply makes with one feature; so
    the actor is made exactly when no keyword is called [self] or
    [function] and the arguments bind in that call. *)
Theorem validation_matches_call (function : wrapped.Callable)
    (data : wrapped.Param) (rest : list wrapped.Param)
    (args : list V) (kwargs : gmap string V) (feature : V) :
  wrapped.signature function = data :: rest ->
  wrapped.pkind data = wrapped.POSITIONAL_ONLY
  \/ wrapped.pkind data = wrapped.POSITIONAL_OR_KEYWORD ->
  kwargs !! wrapped.name data = None ->
  let self := {| wrapped._function := function; wrapped._args := args;
                 wrapped._kwargs := kwargs |} in
  let call := wrapped.Actor_apply_call self [feature] in
  wrapped.bind_partial (wrapped.signature function) (fst call) (snd call)
  = wrapped.bind_partial (drop 1 (wrapped.signature function)) args kwargs
  /\ (is_ok (wrapped.Actor_init function args kwargs)
      = negb (wrapped.names_any ["self"; "function"]%string kwargs)
        && is_ok (wrapped.bind_partial (wrapped.signature function)
                    (fst call) (snd call)))
  /\ (wrapped.Actor_init function args kwargs = Ok self ->
      wrapped.bind_partial (wrapped.signature function)
        (fst call) (snd call) = Ok tt).
Proof.
  intros Hsig Hkind Hkw self call.
  assert (E : wrapped.bind_partial (wrapped.signature function)
                (fst call) (snd call)
              = wrapped.bind_partial (drop 1 (wrapped.signature function))
                  args kwargs).
  { rewrite Hsig. unfold call, wrapped.Actor_apply_call, self. simpl.
    unfold wrapped.bind_partial. simpl.
    destruct Hkind as [-> | ->]; [done|].
    rewrite Hkw.
    by rewrite (bool_decide_eq_false_2 (is_Some None))
      by (intros [? ?]; done). }
  split; [done|]. rewrite E. unfold wrapped.Actor_init.
  destruct (wrapped.names_any ["self"; "function"]%string kwargs);
    [done|].
  by destruct (wrapped.bind_partial (drop 1 (wrapped.signature function))
                 args kwargs) as [[]|].
Qed.
End FunctionActorParams.

Lemma set_params_get_params_witness :
  wrapped.get_params
    (wrapped.set_params
       {| wrapped._function := sample.scale; wrapped._args := [];
          wrapped._kwargs := ∅ |}
       (Some sample.scale) (Some [2]) (Some {[ "offset"%string := 1 ]}))
  = {| wrapped.p_function := sample.scale; wrapped.p_args := [2];
       wrapped.p_kwargs := {[ "offset"%string := 1 ]} |}.
Proof.
  apply (set_params_get_params
           {| wrapped._function := sample.scale; wrapped._args := [];
              wrapped._kwargs := ∅ |} sample.scale 2 []
           {[ "offset"%string := 1 ]}).
  rewrite dom_singleton_L. set_solver.
Defined.

Lemma validation_matches_call_witness :
  wrapped.bind_partial (wrapped.signature sample.scale) [7; 2]
    ({[ "offset"%string := 1 ]} : gmap string nat)
  = wrapped.bind_partial (drop 1 (wrapped.signature sample.scale)) [2]
      {[ "offset"%string := 1 ]}.
Proof.
  destruct (validation_matches_call sample.scale _ _ [2]
              ({[ "offset"%string := 1 ]} : gmap string nat) 7 eq_refl)
    as [H _].
  - right. reflexivity.
  - reflexivity.
  - exact H.
Defined.

(** ** Symbols and the visitors of a path *)

(** X17: making a symbol fails the assertion exactly when one of the
    arguments is [None]; otherwise the symbol holds the arguments as they
    were given, in order, and none when no argument list is given. *)
Theorem Symbol_new_arguments (i : assembly.Instruction)
    (arguments : list (option assembly.Instruction)) :
  (assembly.Symbol_new i (Some arguments) = Raise AssertionError
   <-> None ∈ arguments)
  /\ (forall s, assembly.Symbol_new i (Some arguments) = Ok s ->
        assembly.instruction s = i
        /\ Some <$> assembly.arguments s = arguments)
  /\ assembly.Symbol_new i None
     = Ok {| assembly.instruction := i; assembly.arguments := [] |}.
Proof.
  unfold assembly.Symbol_new. simpl.
  assert (H : forallb (fun a : option assembly.Instruction =>
                         bool_decide (is_Some a)) arguments = true
              <-> None ∉ arguments).
  { induction arguments as [|[a|] l IH]; simpl.
    - split; [intros _ H; by apply elem_of_nil in H|done].
    - rewrite IH, not_elem_of_cons. split; [done|tauto].
    - split; [done|]. intros Hn. exfalso. apply Hn. by left. }
  assert (Hround : None ∉ arguments ->
                   Some <$> omap id arguments = arguments).
  { clear H. induction arguments as [|[a|] l IH]; simpl; intros E.
    - done.
    - f_equal. apply IH. rewrite not_elem_of_cons in E. tauto.
    - exfalso. apply E. by left. }
  split; [|split; [|done]].
  - destruct (forallb _ arguments); simpl.
    + split; [done|]. intros Hin. by destruct (proj1 H eq_refl Hin).
    + split; [|done]. intros _.
      destruct (decide (None ∈ arguments)) as [|Hn]; [done|].
      apply H in Hn. done.
  - intros s. destruct (forallb _ arguments); simpl; [|done].
    intros [= <-]. simpl. split; [done|].
    apply Hround, H. done.
Qed.

(** X18: after linking a path of frozen workers, visit_path hands
    visit_symbol one symbol for every node reached and no other, in
    whatever order: the instructions it sees are, up to their order, those
    of the nodes reached, each once. *)
Theorem visit_path_once_per_node (g : flow.Graph) (reached : list nat) :
  (forall n, n ∈ reached -> assembly.frozen g n = true) ->
  exists t, assembly.link g reached = Ok t
    /\ let seen := assembly.visit_path (fun acc s => acc ++ [s]) t [] in
       assembly.instruction <$> seen
       ≡ₚ assembly.Functor <$> remove_dups reached
       /\ NoDup (assembly.instruction <$> seen)
       /\ (forall n, assembly.Functor n ∈ assembly.instruction <$> seen
                     <-> n ∈ reached).
Proof.
  intros Hf. eexists. split; [by apply dispatch_distinct|]. simpl.
  unfold assembly.visit_path. simpl.
  assert (Hfold : forall (l acc : list assembly.Symbol),
            foldl (fun acc s => acc ++ [s]) acc l = acc ++ l).
  { induction l as [|s l IH]; intros acc; simpl.
    - by rewrite app_nil_r.
    - rewrite IH, <- app_assoc. done. }
  rewrite Hfold. simpl. rewrite <- list_fmap_compose.
  split; [|split].
  - rewrite <- distinct_remove_dups. done.
  - apply NoDup_fmap_2; [|apply distinct_NoDup]. by intros a b [= ->].
  - intros n. rewrite list_elem_of_fmap. split.
    + intros (m & Hm & Hin). simpl in Hm. injection Hm as ->.
      by apply distinct_elem in Hin as [? _].
    + intros Hn. exists n. split; [done|].
      apply distinct_elem. split; [done|apply not_elem_of_empty].
Qed.

Lemma visit_path_once_per_node_witness :
  exists t, assembly.link sample.diamond [0; 1; 3; 0; 2; 3] = Ok t
    /\ assembly.instruction
         <$> assembly.visit_path (fun acc s => acc ++ [s]) t []
       ≡ₚ assembly.Functor <$> [0; 1; 2; 3].
Proof.
  destruct (visit_path_once_per_node sample.diamond [0; 1; 3; 0; 2; 3])
    as (t & Ht & Hs & _).
  - intros n Hn.
    repeat (apply elem_of_cons in Hn as [->|Hn]; [reflexivity|]).
    by apply elem_of_nil in Hn.
  - exists t. split; [done|]. rewrite Hs.
    replace (remove_dups [0; 1; 3; 0; 2; 3]) with [1; 0; 2; 3]
      by reflexivity.
    simpl. apply perm_swap.
Defined.

(** ** The test runner *)

Lemma Initializer_visit_consistent g i n :
  facility.consistent i ->
  facility.consistent (facility.visit_node g i n)
  /\ (forall m, m ∈ facility.instantiated (facility.visit_node g i n)
        <-> m ∈ facility.instantiated i
            \/ (m = n /\ exists spec szin szout,
                  flow.nodes g !! n = Some (flow.Worker spec szin szout))).
Proof.
  intros [Hnd Hg]. unfold facility.visit_node.
  destruct (flow.nodes g !! n) as [[spec szin szout|]|] eqn:En.
  - case_bool_decide as Hk.
    + split; [done|]. intros m. split; [by left|].
      intros [?|[-> _]]; [done|]. by apply Hg.
    + split.
      * split; simpl.
        -- constructor; [|done]. intros Hin. by apply Hg in Hin.
        -- intros m. rewrite elem_of_union, elem_of_singleton, elem_of_cons.
           by rewrite Hg.
      * intros m. simpl. rewrite elem_of_cons. split.
        -- intros [->|?]; [right; eauto|by left].
        -- intros [?|[-> _]]; [by right|by left].
  - split; [done|]. intros m. split; [by left|].
    intros [?|[_ (? & ? & ? & ?)]]; done.
  - split; [done|]. intros m. split; [by left|].
    intros [?|[_ (? & ? & ? & ?)]]; done.
Qed.

Lemma Initializer_accept_consistent g reached : forall i,
  facility.consistent i ->
  facility.consistent (facility.accept g i reached)
  /\ (forall m, m ∈ facility.instantiated (facility.accept g i reached)
        <-> m ∈ facility.instantiated i
            \/ (m ∈ reached /\ exists spec szin szout,
                  flow.nodes g !! m = Some (flow.Worker spec szin szout))).
Proof.
  unfold facility.accept.
  induction reached as [|n rest IH]; intros i Hi; simpl.
  - split; [done|]. intros m. split; [by left|].
    intros [?|[Hin _]]; [done|]. by apply elem_of_nil in Hin.
  - destruct (Initializer_visit_consistent g i n Hi) as [Hc Hm].
    destruct (IH _ Hc) as [Hc' Hm']. split; [done|].
    intros m. rewrite Hm', Hm, elem_of_cons. split.
    + intros [[?|[-> ?]]|[? ?]]; [by left|right|right]; split; eauto.
    + intros [?|[[->|?] ?]]; [by left; left|left; right|right]; eauto.
Qed.

(** X19: the runner's initializer, taken along the apply, the train and
    the label path in turn, calls spec() once on every worker that one of
    the paths reaches, however many of them reach it and however often,
    and on nothing else: a placeholder is passed over. *)
Theorem runner_instantiates_once (g : flow.Graph)
    (apply train label : list nat) :
  let done := facility.instantiated
                (facility.initialize g apply train label) in
  NoDup done
  /\ (forall n, n ∈ done
        <-> n ∈ apply ++ train ++ label
            /\ exists spec szin szout,
                 flow.nodes g !! n = Some (flow.Worker spec szin szout))
  /\ (forall n, flow.nodes g !! n = Some flow.Future -> n ∉ done).
Proof.
  intros done. unfold done, facility.initialize.
  assert (H0 : facility.consistent facility.Initializer_init).
  { split; [constructor|]. intros n. simpl. set_solver. }
  destruct (Initializer_accept_consistent g apply _ H0) as [H1 M1].
  destruct (Initializer_accept_consistent g train _ H1) as [H2 M2].
  destruct (Initializer_accept_consistent g label _ H2) as [H3 M3].
  assert (Hchar : forall n,
    n ∈ facility.instantiated
          (facility.accept g
             (facility.accept g
                (facility.accept g facility.Initializer_init apply) train)
             label)
    <-> n ∈ apply ++ train ++ label
        /\ exists spec szin szout,
             flow.nodes g !! n = Some (flow.Worker spec szin szout)).
  { intros n. rewrite M3, M2, M1, !elem_of_app. simpl. split.
    - intros [[[Hn|[? ?]]|[? ?]]|[? ?]];
        [by apply elem_of_nil in Hn|split; eauto..].
    - intros [[?|[?|?]] ?]; eauto 10. }
  split; [apply H3|]. split; [done|].
  intros n Hfut Hin. apply Hchar in Hin as [_ (? & ? & ? & Hw)]. congruence.
Qed.

(** ** The testing feed *)

(** X20: through the testing feed, the train query of the runner's source
    (the feature column, with the label column) reads the pair of the
    scenario's train data and its one-item label list, and the slicer
    actor made of the feed's slicer gives back the train data and the
    label themselves; the apply query (the feature column alone) reads
    the scenario's apply data. *)
Theorem testing_feed_returns_scenario {A : Type}
    (scenario : @facility.Scenario A) :
  facility.extract_labels scenario [facility.feature] [facility.label]
  = Ok (extract.Column (facility.s_train scenario),
        extract.Column (facility.s_label scenario))
  /\ facility.Feed_read (facility.Feed_columns scenario) [facility.feature]
     = facility.s_apply scenario
  /\ (forall columns : list (@facility.value A),
        length columns ≠ 2 ->
        extract.Actor_apply
          (extract.Actor_init facility.Feed_slicer
             [facility.feature] [facility.label]) columns
        = Raise AssertionError).
Proof.
  split; [|split].
  - unfold facility.extract_labels, facility.Feed_read.
    rewrite bool_decide_eq_true_2 by (right; left).
    reflexivity.
  - unfold facility.Feed_read.
    rewrite bool_decide_eq_false_2; [done|].
    intros H. apply elem_of_cons in H as [H|H]; [done|].
    by apply elem_of_nil in H.
  - intros columns Hne. unfold extract.Actor_apply, extract.Actor_init.
    simpl. apply Nat.eqb_neq in Hne. by rewrite Hne.
Qed.
